(** * rio.app_server.fastapi_server: session lifecycle and connection protocol

    A shallow embedding of the stateful parts of [FastapiServer]: the latent
    and active session-token maps, the websocket handler [_serve_websocket]
    cut at its suspension points, the expiry reaper, the upload endpoint, the
    shutdown sequence of [_lifespan] and the route table with
    [weakly_host_asset].

    The program runs on one asyncio event loop: between two [await]s a
    coroutine runs alone, so every block of code between two suspension
    points is one atomic transition of the model. *)

From Stdlib Require Import QArith Lqa Ascii.
From stdpp Require Import gmap strings list fin_maps.

Set Warnings "-clear-no-such-hyp".

Local Open Scope string_scope.
Local Open Scope list_scope.
Local Open Scope stdpp_scope.

(** ** Small helpers *)

(** [x < y] on the rationals as a boolean; timestamps of [time.monotonic()]
    are finite floats, hence rationals, and [<] on them is the rational
    order. *)
Definition Qltb (x y : Q) : bool :=
  if Qlt_le_dec x y then true else false.

Lemma Qltb_true (x y : Q) : Qltb x y = true <-> (x < y)%Q.
Proof.
  unfold Qltb. destruct (Qlt_le_dec x y) as [Hlt|Hle]; split; intros H; try done.
  exfalso. apply (Qlt_not_le _ _ H). exact Hle.
Qed.

Lemma Qltb_false (x y : Q) : Qltb x y = false <-> (y <= x)%Q.
Proof.
  unfold Qltb. destruct (Qlt_le_dec x y) as [Hlt|Hle]; split; intros H; try done.
  exfalso. apply (Qlt_not_le _ _ Hlt). exact H.
Qed.

(** ** The session registry and the websocket handshake *)

Module Sessions.

(** Identity of a [rio.Session] object and of a [fastapi.WebSocket] object. *)
Definition sid := nat.
Definition wsid := nat.

(** The part of a [fastapi.Request] the handlers read. *)
Record Request := mkRequest {
  request_url : string;
  request_client : option (string * Z)
}.

(** The fields of a [rio.Session] object that this file reads or writes.
    [receive_message_token] is the [session_token] captured by the
    [receive_message] closure that [_create_session_from_websocket] hands to
    the session ([None] for a crawler's session, whose closure never touches
    the maps). *)
Record Session := mkSession {
  _websocket : option wsid;
  _is_active_event : bool;
  _last_interaction_timestamp : Q;
  receive_message_token : option string
}.

Definition set_websocket (v : option wsid) (s : Session) : Session :=
  mkSession v (_is_active_event s) (_last_interaction_timestamp s)
            (receive_message_token s).

Definition set_is_active_event (v : bool) (s : Session) : Session :=
  mkSession (_websocket s) v (_last_interaction_timestamp s)
            (receive_message_token s).

(** Fields that the session's own methods may rewrite. *)
Definition set_mutable (ws : option wsid) (ev : bool) (ts : Q) (s : Session)
  : Session :=
  mkSession ws ev ts (receive_message_token s).

(** Exceptions that leave [_serve_websocket]. *)
Inductive exn :=
| AssertionError
| TimeoutError
| HTTPException (status : Z) (detail : string)
| OtherError (name : string).

(** How a websocket stands. *)
Inductive ws_status :=
| WsConnecting
| WsAccepted
| WsClosed (code : Z) (reason : string).

(** Coroutines handed to the event loop. [Teardown s] is
    [s._close(close_remote_session=True)]. *)
Inductive coro :=
| Refresh (s : sid)
| SendAllComponentsOnReconnect (s : sid)
| Teardown (s : sid).

#[global] Instance coro_eq_dec : EqDecision coro.
Proof. solve_decision. Defined.

(** Where a running [_serve_websocket] coroutine is suspended. *)
Inductive ws_pc :=
| AwaitGate                       (* in [_can_create_new_sessions.wait()] *)
| AwaitAccept                     (* in [websocket.accept()] *)
| AwaitCreate (request : Request) (* in [_create_session_from_websocket] *)
| Serving (sess : sid)            (* in [sess.serve()] *)
| Returned
| Raised (e : exn).

Record Connection := mkConnection {
  conn_token : string;
  conn_status : ws_status;
  conn_pc : ws_pc
}.

(** The slice of [FastapiServer] (and of the objects it refers to) that the
    session protocol reads and writes. Session objects live in a store and
    the active map holds references into it, as in the source.
    [issued] is the set of values [secrets.token_urlsafe()] has returned. *)
Record World := mkWorld {
  _can_create_new_sessions : bool;
  _latent_session_tokens : gmap string Request;
  _active_session_tokens : gmap string sid;
  sessions : gmap sid Session;
  next_sid : sid;
  connections : gmap wsid Connection;
  spawned : list coro;
  issued : gset string
}.

Definition init : World :=
  mkWorld true ∅ ∅ ∅ 0 ∅ [] ∅.

Definition set_gate (b : bool) (w : World) : World :=
  mkWorld b (_latent_session_tokens w) (_active_session_tokens w) (sessions w)
          (next_sid w) (connections w) (spawned w) (issued w).

Definition set_latent (m : gmap string Request) (w : World) : World :=
  mkWorld (_can_create_new_sessions w) m (_active_session_tokens w) (sessions w)
          (next_sid w) (connections w) (spawned w) (issued w).

Definition set_active (m : gmap string sid) (w : World) : World :=
  mkWorld (_can_create_new_sessions w) (_latent_session_tokens w) m (sessions w)
          (next_sid w) (connections w) (spawned w) (issued w).

Definition set_sessions (m : gmap sid Session) (w : World) : World :=
  mkWorld (_can_create_new_sessions w) (_latent_session_tokens w)
          (_active_session_tokens w) m
          (next_sid w) (connections w) (spawned w) (issued w).

Definition set_next_sid (n : sid) (w : World) : World :=
  mkWorld (_can_create_new_sessions w) (_latent_session_tokens w)
          (_active_session_tokens w) (sessions w)
          n (connections w) (spawned w) (issued w).

Definition set_connections (m : gmap wsid Connection) (w : World) : World :=
  mkWorld (_can_create_new_sessions w) (_latent_session_tokens w)
          (_active_session_tokens w) (sessions w)
          (next_sid w) m (spawned w) (issued w).

Definition set_spawned (l : list coro) (w : World) : World :=
  mkWorld (_can_create_new_sessions w) (_latent_session_tokens w)
          (_active_session_tokens w) (sessions w)
          (next_sid w) (connections w) l (issued w).

Definition set_issued (s : gset string) (w : World) : World :=
  mkWorld (_can_create_new_sessions w) (_latent_session_tokens w)
          (_active_session_tokens w) (sessions w)
          (next_sid w) (connections w) (spawned w) s.

(** [asyncio.create_task(c)]. *)
Definition create_task (c : coro) (w : World) : World :=
  set_spawned (spawned w ++ [c]) w.

(** Update the connection of websocket [ws]. *)
Definition set_conn (ws : wsid) (c : Connection) (w : World) : World :=
  set_connections (<[ws := c]> (connections w)) w.

(** Write a field of session object [s]. *)
Definition update_session (s : sid) (f : Session -> Session) (w : World) : World :=
  set_sessions (alter f s (sessions w)) w.

(** Modelled from the spec: [rio.Session.close] is not among the sources. The
    source calls it without [await] (reaper, end of serving) and awaits the
    coroutine [_close(close_remote_session=True)] at shutdown; section 4.2
    says that closing "terminates and removes" the session. The synchronous
    call is taken to schedule the teardown coroutine, and the teardown to
    remove the session from the active map. *)
Definition Session_close (s : sid) (w : World) : World :=
  create_task (Teardown s) w.

(** Modelled from the spec: the teardown coroutine [rio.Session._close]
    (not among the sources) removes every entry of the active map that
    refers to the session (section 4.2, "terminates and removes"). *)
Definition Session__close (s : sid) (w : World) : World :=
  set_active (filter (λ kv, kv.2 ≠ s) (_active_session_tokens w)) w.

(** *** [_serve_index], non-crawler branch (lines 449-452)

    [tok] is the value [secrets.token_urlsafe()] returned. *)
Definition _serve_index (tok : string) (request : Request) (w : World) : World :=
  set_issued ({[tok]} ∪ issued w)
    (set_latent (<[tok := request]> (_latent_session_tokens w)) w).

(** *** [_serve_index], crawler branch (lines 408-448)

    [create_session] (not among the sources) either returns a new session or
    raises [NavigationFailed]; the session is closed at once and no map is
    touched; the page embeds the token ["<crawler>"]. *)
Definition _serve_index_crawler (created : option Session) (w : World) : World :=
  match created with
  | None => w
  | Some s =>
      let id := next_sid w in
      let s' := mkSession (_websocket s) (_is_active_event s)
                  (_last_interaction_timestamp s) None in
      Session_close id
        (set_next_sid (S id) (set_sessions (<[id := s']> (sessions w)) w))
  end.

(** *** [_serve_websocket] (lines 825-900), one block per suspension point *)

(** A websocket upgrade arrives: the coroutine starts and reaches
    [await self._can_create_new_sessions.wait()]. *)
Definition ws_connect (ws : wsid) (tok : string) (w : World) : option World :=
  match connections w !! ws with
  | Some _ => None
  | None => Some (set_conn ws (mkConnection tok WsConnecting AwaitGate) w)
  end.

(** Lines 840-845: [Event.wait()] lets the coroutine through only while the
    event is set; the coroutine then calls [websocket.accept()]. *)
Definition ws_pass_gate (ws : wsid) (w : World) : option World :=
  match connections w !! ws with
  | Some (mkConnection tok WsConnecting AwaitGate) =>
      if _can_create_new_sessions w
      then Some (set_conn ws (mkConnection tok WsAccepted AwaitAccept) w)
      else None
  | _ => None
  end.

(** Lines 850-876 up to the next suspension, once [accept()] has returned. *)
Definition ws_lookup (ws : wsid) (w : World) : option World :=
  match connections w !! ws with
  | Some (mkConnection session_token st AwaitAccept) =>
      match _latent_session_tokens w !! session_token with
      | Some request =>
          (* [self._latent_session_tokens.pop(session_token)] succeeded *)
          let w1 := set_latent (delete session_token (_latent_session_tokens w)) w in
          match request_client request with
          | None =>
              (* [assert request.client is not None] *)
              Some (set_conn ws (mkConnection session_token st (Raised AssertionError)) w1)
          | Some _ =>
              Some (set_conn ws (mkConnection session_token st (AwaitCreate request)) w1)
          end
      | None =>
          match _active_session_tokens w !! session_token with
          | None =>
              Some (set_conn ws
                      (mkConnection session_token
                         (WsClosed 3000 "Invalid session token.") Returned) w)
          | Some sess =>
              let w1 := update_session sess (set_is_active_event true) w in
              let w2 := create_task (SendAllComponentsOnReconnect sess) w1 in
              Some (set_conn ws (mkConnection session_token st (Serving sess)) w2)
          end
      end
  | _ => None
  end.

(** What [_create_session_from_websocket] does after its suspension: it
    returns the session [create_session] built, or raises (timeout of the
    initial message, malformed initial message, [NavigationFailed] turned
    into a 500). *)
Inductive create_outcome :=
| CreateReturned (s : Session)
| CreateRaised (e : exn).

(** Lines 869-885: the new session is stored in the active map, its refresh
    is scheduled and serving starts. The session object is new: it gets an
    identity no other object has. *)
Definition ws_created (ws : wsid) (o : create_outcome) (w : World) : option World :=
  match connections w !! ws with
  | Some (mkConnection session_token st (AwaitCreate request)) =>
      match o with
      | CreateRaised e =>
          Some (set_conn ws (mkConnection session_token st (Raised e)) w)
      | CreateReturned s =>
          let sess := next_sid w in
          let s' := mkSession (_websocket s) (_is_active_event s)
                      (_last_interaction_timestamp s) (Some session_token) in
          let w1 := set_next_sid (S sess)
                      (set_sessions (<[sess := s']> (sessions w)) w) in
          let w2 := set_active (<[session_token := sess]> (_active_session_tokens w1)) w1 in
          let w3 := create_task (Refresh sess) w2 in
          Some (set_conn ws (mkConnection session_token st (Serving sess)) w3)
      end
  | _ => None
  end.

(** How [await sess.serve()] ends. *)
Inductive serve_outcome :=
| ServeCancelled                     (* [asyncio.CancelledError] *)
| ServeDisconnect (code : Z)         (* [fastapi.WebSocketDisconnect] *)
| ServeReturned                      (* returns without raising *)
| ServeRaised (e : exn).             (* any other exception *)

(** Lines 886-900: the [except]/[else] branches, then the [finally] block. *)
Definition ws_serve_ends (ws : wsid) (o : serve_outcome) (w : World) : option World :=
  match connections w !! ws with
  | Some (mkConnection session_token st (Serving sess)) =>
      let w1 :=
        match o with
        | ServeCancelled => w
        | ServeDisconnect code =>
            if bool_decide (code = 1001%Z) then Session_close sess w else w
        | ServeReturned => Session_close sess w
        | ServeRaised _ => w
        end in
      let w2 := update_session sess (set_websocket None) w1 in
      let w3 := update_session sess (set_is_active_event false) w2 in
      let pc := match o with ServeRaised e => Raised e | _ => Returned end in
      Some (set_conn ws (mkConnection session_token st pc) w3)
  | _ => None
  end.

(** [_serve_websocket] from its first line to its last with no other
    coroutine running in between. [created] says how the creation of the
    session ends, [served] how serving ends, for the runs that get there.
    The result is [None] when the handler cannot start (the websocket object
    is already in use) or stays suspended at the gate. *)
Definition _serve_websocket (websocket : wsid) (sessionToken : string)
    (created : create_outcome) (served : serve_outcome) (w : World)
  : option World :=
  w1 ← ws_connect websocket sessionToken w;
  w2 ← ws_pass_gate websocket w1;
  w3 ← ws_lookup websocket w2;
  match conn_pc <$> connections w3 !! websocket with
  | Some (AwaitCreate _) =>
      w4 ← ws_created websocket created w3;
      match conn_pc <$> connections w4 !! websocket with
      | Some (Serving _) => ws_serve_ends websocket served w4
      | _ => Some w4
      end
  | Some (Serving _) => ws_serve_ends websocket served w3
  | _ => Some w3
  end.

(** Line 919: the first statement of the [receive_message] closure of
    session [sess]. *)
Definition receive_message (sess : sid) (w : World) : option World :=
  match sessions w !! sess with
  | Some s =>
      match receive_message_token s with
      | Some session_token =>
          Some (set_active (<[session_token := sess]> (_active_session_tokens w)) w)
      | None => None
      end
  | None => None
  end.

(** Lines 816-823: entering and leaving
    [temporarily_disable_new_session_creation]. *)
Definition disable_new_session_creation (w : World) : World := set_gate false w.
Definition enable_new_session_creation (w : World) : World := set_gate true w.

(** *** The expiry reaper (lines 128-146) *)

Definition LOOP_INTERVAL : Q := 60 * 15.
Definition SESSION_LIFETIME : Q := 60 * 60.

(** The timestamp the loop reads through the reference held by the map. *)
Definition timestamp_of (w : World) (sess : sid) : option Q :=
  _last_interaction_timestamp <$> (sessions w !! sess).

(** The body of the [for] loop for one session. *)
Definition reap_one (cutoff : Q) (w : World) (sess : sid) : World :=
  match timestamp_of w sess with
  | Some ts => if Qltb ts cutoff then Session_close sess w else w
  | None => w
  end.

(** The loop's test, [sess._last_interaction_timestamp < cutoff]. *)
Definition expired (cutoff : Q) (w : World) (sess : sid) : bool :=
  match timestamp_of w sess with
  | Some ts => Qltb ts cutoff
  | None => false
  end.

(** [self._active_session_tokens.values()]. *)
Definition active_values (w : World) : list sid :=
  (map_to_list (_active_session_tokens w)).*2.

(** One pass, lines 141-146, with [now] the value of [time.monotonic()]. *)
Definition reaper_pass (now : Q) (w : World) : World :=
  let cutoff := (now - SESSION_LIFETIME)%Q in
  foldl (reap_one cutoff) w (active_values w).

(** What one turn of the [while True] loop does. *)
Inductive reaper_event :=
| Sleep (seconds : Q)
| Pass (now : Q)
| Exit.

(** The loop, for as many turns as there are clock readings: each turn
    sleeps, then dereferences the weak reference ([alive]) and either
    returns or makes a pass. *)
Fixpoint reaper_loop (turns : list (bool * Q)) (w : World)
  : list reaper_event * World :=
  match turns with
  | [] => ([], w)
  | (alive, now) :: rest =>
      if alive then
        let '(evs, w') := reaper_loop rest (reaper_pass now w) in
        (Sleep LOOP_INTERVAL :: Pass now :: evs, w')
      else ([Sleep LOOP_INTERVAL; Exit], w)
  end.

(** *** The transition system *)

Inductive action :=
| Index (tok : string) (request : Request)
| IndexCrawler (created : option Session)
| Connect (ws : wsid) (tok : string)
| PassGate (ws : wsid)
| Lookup (ws : wsid)
| Created (ws : wsid) (o : create_outcome)
| ServeEnds (ws : wsid) (o : serve_outcome)
| ReceiveMessage (sess : sid)
| DisableNewSessions
| EnableNewSessions
| ReaperPass (now : Q)
| RunTeardown (sess : sid)
| SessionInternal (sess : sid) (ws : option wsid) (ev : bool) (ts : Q).

(** [exec a w] is the world after [a], or [None] when [a] cannot happen in
    [w]. A token drawn by [secrets.token_urlsafe()] (32 random bytes) is
    taken never to repeat an earlier draw. A teardown runs only if it was
    scheduled. [SessionInternal] stands for the session's own methods
    rewriting its fields. *)
Definition exec (a : action) (w : World) : option World :=
  match a with
  | Index tok request =>
      if bool_decide (tok ∈ issued w) then None
      else Some (_serve_index tok request w)
  | IndexCrawler created => Some (_serve_index_crawler created w)
  | Connect ws tok => ws_connect ws tok w
  | PassGate ws => ws_pass_gate ws w
  | Lookup ws => ws_lookup ws w
  | Created ws o => ws_created ws o w
  | ServeEnds ws o => ws_serve_ends ws o w
  | ReceiveMessage sess => receive_message sess w
  | DisableNewSessions => Some (disable_new_session_creation w)
  | EnableNewSessions => Some (enable_new_session_creation w)
  | ReaperPass now => Some (reaper_pass now w)
  | RunTeardown sess =>
      if bool_decide (Teardown sess ∈ spawned w)
      then Some (Session__close sess w) else None
  | SessionInternal sess ws ev ts =>
      Some (update_session sess (set_mutable ws ev ts) w)
  end.

(** Run a list of actions, stopping with [None] at the first that cannot
    happen. *)
Fixpoint run (l : list action) (w : World) : option World :=
  match l with
  | [] => Some w
  | a :: l' =>
      match exec a w with
      | Some w' => run l' w'
      | None => None
      end
  end.

Definition in_latent (w : World) (tok : string) : Prop :=
  is_Some (_latent_session_tokens w !! tok).

Definition in_active (w : World) (tok : string) : Prop :=
  is_Some (_active_session_tokens w !! tok).

(** [a] is the token lookup of a websocket handler that carries [tok]: the
    start of the promotion of [tok]. *)
Definition promotes (w : World) (a : action) (tok : string) : Prop :=
  exists ws c, a = Lookup ws /\ connections w !! ws = Some c /\ conn_token c = tok.

(** No action of [l], run from [w], starts the promotion of [tok]. *)
Fixpoint no_promotion (tok : string) (l : list action) (w : World) : Prop :=
  match l with
  | [] => True
  | a :: l' =>
      ¬ promotes w a tok /\
      match exec a w with
      | Some w' => no_promotion tok l' w'
      | None => True
      end
  end.

Inductive reachable : World -> Prop :=
| reachable_init : reachable init
| reachable_step a w w' : reachable w -> exec a w = Some w' -> reachable w'.

End Sessions.

Module SessionsFacts.
Import Sessions.

(** ** Well-formed worlds *)

Record wf (w : World) : Prop := mk_wf {
  wf_disjoint : forall tok,
    _latent_session_tokens w !! tok = None \/
    _active_session_tokens w !! tok = None;
  wf_latent_issued : forall tok,
    is_Some (_latent_session_tokens w !! tok) -> tok ∈ issued w;
  wf_active_issued : forall tok,
    is_Some (_active_session_tokens w !! tok) -> tok ∈ issued w;
  wf_creating : forall ws tok st req,
    connections w !! ws = Some (mkConnection tok st (AwaitCreate req)) ->
    tok ∈ issued w /\ _latent_session_tokens w !! tok = None;
  wf_closure : forall sess s tok,
    sessions w !! sess = Some s -> receive_message_token s = Some tok ->
    tok ∈ issued w /\ _latent_session_tokens w !! tok = None;
  wf_store : forall sess, is_Some (sessions w !! sess) <-> sess < next_sid w;
  wf_active_store : forall tok sess,
    _active_session_tokens w !! tok = Some sess -> sess < next_sid w;
  wf_serving : forall ws tok st sess,
    connections w !! ws = Some (mkConnection tok st (Serving sess)) ->
    sess < next_sid w
}.

Lemma wf_init : wf init.
Proof.
  split; cbn.
  - intros tok. left. apply lookup_empty.
  - intros tok [x Hx]. by rewrite lookup_empty in Hx.
  - intros tok [x Hx]. by rewrite lookup_empty in Hx.
  - intros ws tok st req H. by rewrite lookup_empty in H.
  - intros sess s tok H. by rewrite lookup_empty in H.
  - intros sess. rewrite lookup_empty. split; [intros [? ?]; done | lia].
  - intros tok sess H. by rewrite lookup_empty in H.
  - intros ws tok st sess H. by rewrite lookup_empty in H.
Qed.

(** The reaper only schedules teardowns. *)
Lemma reap_one_spawned cutoff w sess :
  exists l, reap_one cutoff w sess = set_spawned (spawned w ++ l) w.
Proof.
  unfold reap_one. destruct (timestamp_of w sess) as [ts|].
  - destruct (Qltb ts cutoff).
    + by exists [Teardown sess].
    + exists []. rewrite app_nil_r. by destruct w.
  - exists []. rewrite app_nil_r. by destruct w.
Qed.

Lemma foldl_reap_spawned cutoff l w :
  exists l', foldl (reap_one cutoff) w l = set_spawned (spawned w ++ l') w.
Proof.
  revert w. induction l as [|sess l IH]; intros w; cbn [foldl].
  - exists []. rewrite app_nil_r. by destruct w.
  - destruct (reap_one_spawned cutoff w sess) as [l1 ->].
    destruct (IH (set_spawned (spawned w ++ l1) w)) as [l2 ->].
    exists (l1 ++ l2). cbn. by rewrite app_assoc.
Qed.

Lemma reaper_pass_spawned now w :
  exists l, reaper_pass now w = set_spawned (spawned w ++ l) w.
Proof. apply foldl_reap_spawned. Qed.

Lemma wf_set_spawned l w : wf w -> wf (set_spawned l w).
Proof. intros [? ? ? ? ? ? ? ?]. by split. Qed.

Lemma wf_set_gate b w : wf w -> wf (set_gate b w).
Proof. intros [? ? ? ? ? ? ? ?]. by split. Qed.

(** A connection that stores neither a request nor a session reference
    constrains nothing. *)
Definition inert (pc : ws_pc) : Prop :=
  match pc with
  | AwaitCreate _ | Serving _ => False
  | _ => True
  end.

Lemma wf_set_conn_inert ws c w :
  wf w -> inert (conn_pc c) -> wf (set_conn ws c w).
Proof.
  intros [Hd Hl Ha Hc Hcl Hst Has Hsv] Hin. split; cbn; try done.
  - intros ws' tok st req H. destruct (decide (ws' = ws)) as [->|Hne].
    + rewrite lookup_insert_eq in H. simplify_eq. done.
    + rewrite lookup_insert_ne in H by done. eauto.
  - intros ws' tok st sess H. destruct (decide (ws' = ws)) as [->|Hne].
    + rewrite lookup_insert_eq in H. simplify_eq. done.
    + rewrite lookup_insert_ne in H by done. eauto.
Qed.

Lemma wf_serve_index tok req w :
  wf w -> tok ∉ issued w -> wf (_serve_index tok req w).
Proof.
  intros [Hd Hl Ha Hc Hcl Hst Has Hsv] Hfresh. split; cbn; try done.
  - intros t. destruct (decide (t = tok)) as [->|Hne].
    + right. destruct (_active_session_tokens w !! tok) as [sess|] eqn:E; [|done].
      exfalso. apply Hfresh, Ha. by rewrite E.
    + rewrite lookup_insert_ne by done. apply Hd.
  - intros t. destruct (decide (t = tok)) as [->|Hne].
    + intros _. apply elem_of_union_l, elem_of_singleton. done.
    + rewrite lookup_insert_ne by done. intros H. apply elem_of_union_r, Hl, H.
  - intros t H. apply elem_of_union_r, Ha, H.
  - intros ws t st r H. destruct (Hc _ _ _ _ H) as [Hi Hn].
    split; [by apply elem_of_union_r|].
    rewrite lookup_insert_ne; [done|]. by intros ->.
  - intros sess s t H1 H2. destruct (Hcl _ _ _ H1 H2) as [Hi Hn].
    split; [by apply elem_of_union_r|].
    rewrite lookup_insert_ne; [done|]. by intros ->.
Qed.

(** Allocating a session object. *)
Lemma wf_alloc s w :
  wf w ->
  (forall tok, receive_message_token s = Some tok ->
     tok ∈ issued w /\ _latent_session_tokens w !! tok = None) ->
  wf (set_next_sid (S (next_sid w))
        (set_sessions (<[next_sid w := s]> (sessions w)) w)).
Proof.
  intros [Hd Hl Ha Hc Hcl Hst Has Hsv] Hs. split; cbn; try done.
  - intros sess s' tok H. destruct (decide (sess = next_sid w)) as [->|Hne].
    + rewrite lookup_insert_eq in H. simplify_eq. apply Hs.
    + rewrite lookup_insert_ne in H by done. eauto.
  - intros sess. destruct (decide (sess = next_sid w)) as [->|Hne].
    + rewrite lookup_insert_eq. split; [lia | eauto].
    + rewrite lookup_insert_ne by done. rewrite Hst. lia.
  - intros tok sess H. apply Has in H. lia.
  - intros ws tok st sess H. apply Hsv in H. lia.
Qed.

Lemma wf_update_session sess f w :
  wf w ->
  (forall s, receive_message_token (f s) = receive_message_token s) ->
  wf (update_session sess f w).
Proof.
  intros [Hd Hl Ha Hc Hcl Hst Has Hsv] Hf. split; cbn; try done.
  - intros sess' s tok H. rewrite lookup_alter in H.
    case_decide; subst.
    + destruct (sessions w !! sess') as [s0|] eqn:E; cbn in H; [|done].
      simplify_eq. rewrite Hf. eauto.
    + eauto.
  - intros sess'. rewrite <- Hst. rewrite lookup_alter. case_decide; subst.
    + by rewrite fmap_is_Some.
    + done.
Qed.

Lemma wf_insert_active tok sess w :
  wf w -> tok ∈ issued w -> _latent_session_tokens w !! tok = None ->
  sess < next_sid w ->
  wf (set_active (<[tok := sess]> (_active_session_tokens w)) w).
Proof.
  intros [Hd Hl Ha Hc Hcl Hst Has Hsv] Hi Hn Hlt. split; cbn; try done.
  - intros t. destruct (decide (t = tok)) as [->|Hne]; [by left|].
    rewrite lookup_insert_ne by done. apply Hd.
  - intros t. destruct (decide (t = tok)) as [->|Hne]; [done|].
    rewrite lookup_insert_ne by done. apply Ha.
  - intros t s. destruct (decide (t = tok)) as [->|Hne].
    + rewrite lookup_insert_eq. intros; simplify_eq. done.
    + rewrite lookup_insert_ne by done. apply Has.
Qed.

Lemma wf_Session__close sess w : wf w -> wf (Session__close sess w).
Proof.
  intros [Hd Hl Ha Hc Hcl Hst Has Hsv]. split; cbn; try done.
  - intros t. destruct (Hd t) as [H|H]; [by left|right].
    apply map_lookup_filter_None. by left.
  - intros t [x Hx]. apply map_lookup_filter_Some in Hx as [Hx _].
    apply Ha. by rewrite Hx.
  - intros t s Hx. apply map_lookup_filter_Some in Hx as [Hx _]. eauto.
Qed.

Lemma wf_set_conn_serving ws tok st sess w :
  wf w -> sess < next_sid w ->
  wf (set_conn ws (mkConnection tok st (Serving sess)) w).
Proof.
  intros [Hd Hl Ha Hc Hcl Hst Has Hsv] Hlt. split; cbn; try done.
  - intros ws' t st' req H. destruct (decide (ws' = ws)) as [->|Hne].
    + rewrite lookup_insert_eq in H. simplify_eq.
    + rewrite lookup_insert_ne in H by done. eauto.
  - intros ws' t st' s H. destruct (decide (ws' = ws)) as [->|Hne].
    + rewrite lookup_insert_eq in H. simplify_eq. done.
    + rewrite lookup_insert_ne in H by done. eauto.
Qed.

Lemma wf_delete_latent tok w :
  wf w -> wf (set_latent (delete tok (_latent_session_tokens w)) w).
Proof.
  intros [Hd Hl Ha Hc Hcl Hst Has Hsv]. split; cbn; try done.
  - intros t. destruct (Hd t) as [H|H]; [left|by right].
    rewrite lookup_delete. by case_decide.
  - intros t. rewrite lookup_delete. case_decide; [by intros [? ?]|]. apply Hl.
  - intros ws t st req H. destruct (Hc _ _ _ _ H) as [Hi Hn]. split; [done|].
    rewrite lookup_delete. by case_decide.
  - intros sess s t H1 H2. destruct (Hcl _ _ _ H1 H2) as [Hi Hn]. split; [done|].
    rewrite lookup_delete. by case_decide.
Qed.

Lemma wf_set_conn_creating ws tok st req w :
  wf w -> tok ∈ issued w -> _latent_session_tokens w !! tok = None ->
  wf (set_conn ws (mkConnection tok st (AwaitCreate req)) w).
Proof.
  intros [Hd Hl Ha Hc Hcl Hst Has Hsv] Hi Hn. split; cbn; try done.
  - intros ws' t st' r H. destruct (decide (ws' = ws)) as [->|Hne].
    + rewrite lookup_insert_eq in H. simplify_eq. done.
    + rewrite lookup_insert_ne in H by done. eauto.
  - intros ws' t st' s H. destruct (decide (ws' = ws)) as [->|Hne].
    + rewrite lookup_insert_eq in H. simplify_eq.
    + rewrite lookup_insert_ne in H by done. eauto.
Qed.

Lemma wf_ws_lookup ws w w' : wf w -> ws_lookup ws w = Some w' -> wf w'.
Proof.
  intros Hwf H. unfold ws_lookup in H.
  destruct (connections w !! ws) as [[tok st pc]|] eqn:Ec; [|done].
  destruct pc; try done.
  destruct (_latent_session_tokens w !! tok) as [req|] eqn:El.
  - pose proof (wf_delete_latent tok w Hwf) as Hwf1.
    assert (tok ∈ issued w) as Hi by (apply (wf_latent_issued w Hwf); by rewrite El).
    destruct (request_client req); simplify_eq.
    + apply wf_set_conn_creating; [done|done|]. cbn. apply lookup_delete_eq.
    + by apply wf_set_conn_inert.
  - destruct (_active_session_tokens w !! tok) as [sess|] eqn:Ea; simplify_eq.
    + apply wf_set_conn_serving.
      * apply wf_set_spawned. by apply wf_update_session.
      * cbn. by apply (wf_active_store w Hwf tok).
    + by apply wf_set_conn_inert.
Qed.

Lemma wf_ws_created ws o w w' : wf w -> ws_created ws o w = Some w' -> wf w'.
Proof.
  intros Hwf H. unfold ws_created in H.
  destruct (connections w !! ws) as [[tok st pc]|] eqn:Ec; [|done].
  destruct pc; try done.
  destruct (wf_creating w Hwf _ _ _ _ Ec) as [Hi Hn].
  destruct o as [s|e]; simplify_eq.
  - apply wf_set_conn_serving; [|cbn; lia].
    apply wf_set_spawned.
    apply wf_insert_active; [|done|done|cbn; lia].
    apply wf_alloc; [done|]. cbn. intros t ?; by simplify_eq.
  - by apply wf_set_conn_inert.
Qed.

Lemma wf_ws_serve_ends ws o w w' :
  wf w -> ws_serve_ends ws o w = Some w' -> wf w'.
Proof.
  intros Hwf H. unfold ws_serve_ends in H.
  destruct (connections w !! ws) as [[tok st pc]|] eqn:Ec; [|done].
  destruct pc; try done. simplify_eq.
  apply wf_set_conn_inert; [|by destruct o].
  apply wf_update_session; [|done]. apply wf_update_session; [|done].
  destruct o as [|code| |e]; try done.
  - case_bool_decide; [by apply wf_set_spawned|done].
  - by apply wf_set_spawned.
Qed.

Lemma wf_receive_message sess w w' :
  wf w -> receive_message sess w = Some w' -> wf w'.
Proof.
  intros Hwf H. unfold receive_message in H.
  destruct (sessions w !! sess) as [s|] eqn:Es; [|done].
  destruct (receive_message_token s) as [tok|] eqn:Et; [|done]. simplify_eq.
  destruct (wf_closure w Hwf _ _ _ Es Et) as [Hi Hn].
  apply wf_insert_active; try done.
  apply (wf_store w Hwf). eauto.
Qed.

Lemma wf_exec a w w' : wf w -> exec a w = Some w' -> wf w'.
Proof.
  intros Hwf H. destruct a; cbn in H.
  - case_bool_decide; [done|]. simplify_eq. by apply wf_serve_index.
  - simplify_eq. destruct created as [s|]; cbn; [|done].
    apply wf_set_spawned. apply wf_alloc; [done|]. by cbn.
  - unfold ws_connect in H. destruct (connections w !! ws); [done|].
    simplify_eq. by apply wf_set_conn_inert.
  - unfold ws_pass_gate in H.
    destruct (connections w !! ws) as [[tok st pc]|]; [|done].
    destruct st, pc; try done. destruct (_can_create_new_sessions w); [|done].
    simplify_eq. by apply wf_set_conn_inert.
  - by eapply wf_ws_lookup.
  - by eapply wf_ws_created.
  - by eapply wf_ws_serve_ends.
  - by eapply wf_receive_message.
  - simplify_eq. by apply wf_set_gate.
  - simplify_eq. by apply wf_set_gate.
  - simplify_eq. destruct (reaper_pass_spawned now w) as [l ->].
    by apply wf_set_spawned.
  - case_bool_decide; [|done]. simplify_eq. by apply wf_Session__close.
  - simplify_eq. by apply wf_update_session.
Qed.

Lemma reachable_wf w : reachable w -> wf w.
Proof.
  induction 1 as [|a w w' _ IH Hstep]; [apply wf_init | by eapply wf_exec].
Qed.

Lemma run_reachable l w w' : reachable w -> run l w = Some w' -> reachable w'.
Proof.
  revert w. induction l as [|a l IH]; intros w Hr H; cbn in H.
  - by simplify_eq.
  - destruct (exec a w) as [w1|] eqn:E; [|done].
    eapply IH; [|done]. by eapply reachable_step.
Qed.

(** The handler run in one go is a run of the transition system. *)
Lemma _serve_websocket_reachable ws tok created served w w' :
  reachable w -> _serve_websocket ws tok created served w = Some w' ->
  reachable w'.
Proof.
  intros Hr H. unfold _serve_websocket in H.
  destruct (ws_connect ws tok w) as [w1|] eqn:E1; [|done]. cbn in H.
  destruct (ws_pass_gate ws w1) as [w2|] eqn:E2; [|done]. cbn in H.
  destruct (ws_lookup ws w2) as [w3|] eqn:E3; [|done]. cbn in H.
  assert (reachable w3) as Hr3.
  { apply (reachable_step (Lookup ws) w2); [|done].
    apply (reachable_step (PassGate ws) w1); [|done].
    by apply (reachable_step (Connect ws tok) w). }
  destruct (conn_pc <$> connections w3 !! ws) as [[| |req|sess| |e]|];
    try by simplify_eq.
  - destruct (ws_created ws created w3) as [w4|] eqn:E4; [|done]. cbn in H.
    assert (reachable w4) as Hr4
      by (by apply (reachable_step (Created ws created) w3)).
    destruct (conn_pc <$> connections w4 !! ws) as [[| |req'|sess| |e]|];
      try by simplify_eq.
    by apply (reachable_step (ServeEnds ws served) w4).
  - by apply (reachable_step (ServeEnds ws served) w3).
Qed.

(** Only [_serve_index] and the token lookup write the latent map. *)
Lemma exec_latent_stable a w w' tok req :
  wf w -> exec a w = Some w' -> ¬ promotes w a tok ->
  _latent_session_tokens w !! tok = Some req ->
  _latent_session_tokens w' !! tok = Some req.
Proof.
  intros Hwf H Hnp Hl. destruct a; cbn in H.
  - case_bool_decide as Hi; [done|]. simplify_eq. cbn.
    rewrite lookup_insert_ne; [done|]. intros ->. apply Hi.
    apply (wf_latent_issued w Hwf). eauto.
  - simplify_eq. by destruct created.
  - unfold ws_connect in H. destruct (connections w !! ws); by simplify_eq.
  - unfold ws_pass_gate in H.
    destruct (connections w !! ws) as [[t st pc]|]; [|done].
    destruct st, pc; try done.
    destruct (_can_create_new_sessions w); by simplify_eq.
  - unfold ws_lookup in H.
    destruct (connections w !! ws) as [[t st pc]|] eqn:Ec; [|done].
    destruct pc; try done.
    assert (t <> tok) as Hne.
    { intros ->. apply Hnp. by exists ws, (mkConnection tok st AwaitAccept). }
    destruct (_latent_session_tokens w !! t) as [r|].
    + destruct (request_client r); simplify_eq; cbn;
        by rewrite lookup_delete_ne.
    + destruct (_active_session_tokens w !! t); by simplify_eq.
  - unfold ws_created in H.
    destruct (connections w !! ws) as [[t st pc]|]; [|done].
    destruct pc; try done. destruct o; by simplify_eq.
  - unfold ws_serve_ends in H.
    destruct (connections w !! ws) as [[t st pc]|]; [|done].
    destruct pc; try done. simplify_eq.
    destruct o as [|code| |e]; try done. by case_bool_decide.
  - unfold receive_message in H. destruct (sessions w !! sess) as [s|]; [|done].
    destruct (receive_message_token s); by simplify_eq.
  - by simplify_eq.
  - by simplify_eq.
  - simplify_eq. by destruct (reaper_pass_spawned now w) as [l ->].
  - case_bool_decide; by simplify_eq.
  - by simplify_eq.
Qed.

(** *** Claim C1 *)

(** C1. In every reachable world a token is in at most one of the latent and
    the active map. Registering a freshly drawn token puts it into the latent
    map only; it then stays in the latent map, and out of the active map,
    along every run in which no websocket handler looks it up; the lookup
    that starts its promotion pops it from the latent map before anything is
    written to the active map, and the end of the promotion writes the new
    session to the active map while the token is still absent from the
    latent map. *)
Theorem token_in_at_most_one_map (w : World) (tok : string) :
  reachable w ->
  ¬ (in_latent w tok /\ in_active w tok)
  /\ (forall req w',
        exec (Index tok req) w = Some w' ->
        _latent_session_tokens w' !! tok = Some req /\ ¬ in_active w' tok)
  /\ (forall req l w',
        _latent_session_tokens w !! tok = Some req ->
        run l w = Some w' -> no_promotion tok l w ->
        _latent_session_tokens w' !! tok = Some req /\ ¬ in_active w' tok)
  /\ (forall ws st w',
        connections w !! ws = Some (mkConnection tok st AwaitAccept) ->
        in_latent w tok ->
        exec (Lookup ws) w = Some w' ->
        ¬ in_latent w' tok /\ ¬ in_active w' tok)
  /\ (forall ws st req s w',
        connections w !! ws = Some (mkConnection tok st (AwaitCreate req)) ->
        exec (Created ws (CreateReturned s)) w = Some w' ->
        ¬ in_latent w' tok /\
        _active_session_tokens w' !! tok = Some (next_sid w)).
Proof.
  intros Hr. pose proof (reachable_wf w Hr) as Hwf.
  assert (forall v, reachable v -> forall t, ¬ (in_latent v t /\ in_active v t))
    as Hexcl.
  { intros v Hv t [[x Hx] [y Hy]]. apply reachable_wf in Hv.
    destruct (wf_disjoint v Hv t) as [H|H]; congruence. }
  split; [by apply Hexcl|]. split; [|split; [|split]].
  - intros req w' H.
    assert (reachable w') as Hr' by (by eapply reachable_step).
    cbn in H. case_bool_decide; [done|]. simplify_eq.
    assert (_latent_session_tokens (_serve_index tok req w) !! tok = Some req)
      as Hl by apply lookup_insert_eq.
    split; [done|]. intros Ha. apply (Hexcl _ Hr' tok). split; [|done].
    unfold in_latent. rewrite Hl. eauto.
  - intros req l. revert w Hr Hwf. induction l as [|a l IH]; intros w Hr Hwf w' Hl Hrun Hnp.
    + cbn in Hrun. simplify_eq. split; [done|]. intros Ha.
      apply (Hexcl _ Hr tok). split; [|done]. unfold in_latent. rewrite Hl. eauto.
    + cbn in Hrun, Hnp. destruct Hnp as [Hnp1 Hnp2].
      destruct (exec a w) as [w1|] eqn:E; [|done].
      apply (IH w1); try done.
      * by eapply reachable_step.
      * by eapply wf_exec.
      * by eapply exec_latent_stable.
  - intros ws st w' Hc [req Hl] H.
    cbn in H. unfold ws_lookup in H. rewrite Hc, Hl in H.
    assert (_active_session_tokens w !! tok = None) as Ha.
    { destruct (wf_disjoint w Hwf tok) as [?|?]; [congruence|done]. }
    unfold in_latent, in_active.
    destruct (request_client req); simplify_eq; cbn;
      rewrite lookup_delete_eq, Ha; split; by intros [? ?].
  - intros ws st req s w' Hc H.
    destruct (wf_creating w Hwf _ _ _ _ Hc) as [Hi Hn].
    cbn in H. unfold ws_created in H. rewrite Hc in H. simplify_eq. cbn.
    unfold in_latent. cbn. rewrite Hn, lookup_insert_eq.
    split; [by intros [? ?]|done].
Qed.

(** *** Claim C2 *)

(** C2. A websocket handler whose token is in neither map when it looks the
    token up closes the socket with code 3000 and the reason
    "Invalid session token." and returns; no session object is created, no
    coroutine is scheduled and neither map changes. Started with the gate
    open on a token in neither map, the handler accepts the socket and ends
    that way. *)
Theorem unknown_token_rejected (w : World) (ws : wsid) (tok : string) :
  _latent_session_tokens w !! tok = None ->
  _active_session_tokens w !! tok = None ->
  (forall st,
     connections w !! ws = Some (mkConnection tok st AwaitAccept) ->
     exists w',
       exec (Lookup ws) w = Some w' /\
       connections w' !! ws =
         Some (mkConnection tok (WsClosed 3000 "Invalid session token.") Returned) /\
       _latent_session_tokens w' = _latent_session_tokens w /\
       _active_session_tokens w' = _active_session_tokens w /\
       sessions w' = sessions w /\ next_sid w' = next_sid w /\
       spawned w' = spawned w)
  /\ (connections w !! ws = None -> _can_create_new_sessions w = true ->
      exists w1 w',
        run [Connect ws tok; PassGate ws] w = Some w1 /\
        connections w1 !! ws = Some (mkConnection tok WsAccepted AwaitAccept) /\
        run [Connect ws tok; PassGate ws; Lookup ws] w = Some w' /\
        connections w' !! ws =
          Some (mkConnection tok (WsClosed 3000 "Invalid session token.") Returned) /\
        _latent_session_tokens w' = _latent_session_tokens w /\
        _active_session_tokens w' = _active_session_tokens w /\
        sessions w' = sessions w /\ next_sid w' = next_sid w /\
        spawned w' = spawned w)
  /\ (connections w !! ws = None -> _can_create_new_sessions w = true ->
      forall created served,
        _serve_websocket ws tok created served w =
          Some (set_conn ws
                  (mkConnection tok (WsClosed 3000 "Invalid session token.")
                     Returned) w)).
Proof.
  intros Hl Ha. split; [|split].
  - intros st Hc. eexists. cbn. unfold ws_lookup. rewrite Hc, Hl, Ha.
    split; [done|]. cbn. rewrite lookup_insert_eq. done.
  - intros Hc Hg. eexists _, _. cbn. unfold ws_connect. rewrite Hc.
    unfold ws_pass_gate. cbn. rewrite lookup_insert_eq, Hg.
    split; [done|]. split; [cbn; by rewrite lookup_insert_eq|].
    unfold ws_lookup. cbn. rewrite lookup_insert_eq, Hl, Ha.
    split; [done|]. cbn. rewrite lookup_insert_eq. done.
  - intros Hc Hg created served. unfold _serve_websocket, ws_connect.
    rewrite Hc. cbn. unfold ws_pass_gate. cbn. rewrite lookup_insert_eq, Hg.
    cbn. unfold ws_lookup. cbn. rewrite lookup_insert_eq, Hl, Ha. cbn.
    rewrite lookup_insert_eq. cbn. unfold set_conn. cbn.
    by rewrite !insert_insert_eq.
Qed.

(** *** Claim C3 *)

(** While the gate stays closed, a handler waiting at it does not move. *)
Lemma gate_closed_step a w w' ws tok :
  connections w !! ws = Some (mkConnection tok WsConnecting AwaitGate) ->
  _can_create_new_sessions w = false ->
  a <> EnableNewSessions ->
  exec a w = Some w' ->
  connections w' !! ws = Some (mkConnection tok WsConnecting AwaitGate) /\
  _can_create_new_sessions w' = false.
Proof.
  intros Hc Hg Hne H. destruct a; cbn in H; try done.
  - case_bool_decide; by simplify_eq.
  - simplify_eq. by destruct created.
  - unfold ws_connect in H.
    destruct (connections w !! ws0) eqn:E; simplify_eq. cbn.
    rewrite lookup_insert_ne; [done|]. intros ->. congruence.
  - unfold ws_pass_gate in H.
    destruct (connections w !! ws0) as [[t st pc]|]; [|done].
    destruct st, pc; try done. by rewrite Hg in H.
  - unfold ws_lookup in H.
    destruct (connections w !! ws0) as [[t st pc]|] eqn:E; [|done].
    destruct pc; try done.
    assert (ws0 <> ws) as Hw by (intros ->; congruence).
    destruct (_latent_session_tokens w !! t) as [r|].
    + destruct (request_client r); simplify_eq; cbn;
        by rewrite lookup_insert_ne.
    + destruct (_active_session_tokens w !! t); simplify_eq; cbn;
        by rewrite lookup_insert_ne.
  - unfold ws_created in H.
    destruct (connections w !! ws0) as [[t st pc]|] eqn:E; [|done].
    destruct pc; try done.
    assert (ws0 <> ws) as Hw by (intros ->; congruence).
    destruct o; simplify_eq; cbn; by rewrite lookup_insert_ne.
  - unfold ws_serve_ends in H.
    destruct (connections w !! ws0) as [[t st pc]|] eqn:E; [|done].
    destruct pc; try done.
    assert (ws0 <> ws) as Hw by (intros ->; congruence).
    simplify_eq. cbn. rewrite lookup_insert_ne by done.
    destruct o as [|code| |e]; try done. by case_bool_decide.
  - unfold receive_message in H. destruct (sessions w !! sess) as [s|]; [|done].
    destruct (receive_message_token s); by simplify_eq.
  - by simplify_eq.
  - simplify_eq. by destruct (reaper_pass_spawned now w) as [l ->].
  - case_bool_decide; by simplify_eq.
  - by simplify_eq.
Qed.

(** C3, as the code has it. A websocket upgrade arriving while the gate is
    closed is neither accepted nor closed: its handler is suspended at the
    gate, cannot take its next step, and along every run in which the gate
    is not reopened it stays there with the socket still unaccepted, so no
    token lookup happens. Once the gate is reopened the handler accepts the
    socket and goes on to the token lookup. *)
Theorem gate_closed_suspends_upgrade (w : World) (ws : wsid) (tok : string) :
  connections w !! ws = None ->
  _can_create_new_sessions w = false ->
  exists w1,
    exec (Connect ws tok) w = Some w1 /\
    connections w1 !! ws = Some (mkConnection tok WsConnecting AwaitGate) /\
    exec (PassGate ws) w1 = None /\
    exec (Lookup ws) w1 = None /\
    (forall l w2,
       EnableNewSessions ∉ l -> run l w1 = Some w2 ->
       connections w2 !! ws = Some (mkConnection tok WsConnecting AwaitGate)) /\
    (forall l w2,
       EnableNewSessions ∉ l -> run l w1 = Some w2 ->
       exec (PassGate ws) (enable_new_session_creation w2) =
         Some (set_conn ws (mkConnection tok WsAccepted AwaitAccept)
                 (enable_new_session_creation w2))).
Proof.
  intros Hc Hg. eexists. cbn. unfold ws_connect. rewrite Hc.
  split; [done|].
  set (w1 := set_conn ws (mkConnection tok WsConnecting AwaitGate) w).
  assert (connections w1 !! ws = Some (mkConnection tok WsConnecting AwaitGate))
    as Hc1 by apply lookup_insert_eq.
  assert (_can_create_new_sessions w1 = false) as Hg1 by done.
  assert (forall l v v',
            connections v !! ws = Some (mkConnection tok WsConnecting AwaitGate) ->
            _can_create_new_sessions v = false ->
            EnableNewSessions ∉ l -> run l v = Some v' ->
            connections v' !! ws = Some (mkConnection tok WsConnecting AwaitGate))
    as Hstay.
  { induction l as [|a l IH]; intros v v' Hv Hgv Hnl Hrun; cbn in Hrun.
    - by simplify_eq.
    - destruct (exec a v) as [v1|] eqn:E; [|done].
      apply not_elem_of_cons in Hnl as [Hne Hnl].
      destruct (gate_closed_step a v v1 ws tok Hv Hgv (not_eq_sym Hne) E).
      by apply (IH v1). }
  split; [done|]. split.
  { unfold ws_pass_gate. by rewrite Hc1, Hg1. }
  split.
  { unfold ws_lookup. by rewrite Hc1. }
  split.
  - intros l w2. by apply Hstay.
  - intros l w2 Hnl Hrun. cbn. unfold ws_pass_gate. cbn.
    by rewrite (Hstay l w1 w2 Hc1 Hg1 Hnl Hrun).
Qed.

(** *** Claim C4 *)


(** *** Claim C8 *)

(** C8. When serving ends, the [finally] block clears the session's socket
    field and its is-active event, whatever the outcome, and the handler
    leaves the active map as it is. After a disconnect with code 1001 the
    session's teardown is scheduled, and running it leaves no entry of the
    active map referring to the session. After any other disconnect code, a
    cancellation or an error nothing is scheduled: the session stays in the
    active map exactly as it was. *)
Theorem serve_end_disposition
    (w : World) (ws : wsid) (tok : string) (st : ws_status) (sess : sid)
    (o : serve_outcome) :
  reachable w ->
  connections w !! ws = Some (mkConnection tok st (Serving sess)) ->
  exists w' s,
    exec (ServeEnds ws o) w = Some w' /\
    sessions w !! sess = Some s /\
    sessions w' !! sess = Some (set_is_active_event false (set_websocket None s)) /\
    _websocket <$> sessions w' !! sess = Some None /\
    _is_active_event <$> sessions w' !! sess = Some false /\
    _active_session_tokens w' = _active_session_tokens w /\
    (o = ServeDisconnect 1001 ->
       spawned w' = spawned w ++ [Teardown sess] /\
       exists w'',
         exec (RunTeardown sess) w' = Some w'' /\
         forall t, _active_session_tokens w'' !! t <> Some sess) /\
    (o <> ServeDisconnect 1001 -> o <> ServeReturned ->
       spawned w' = spawned w /\
       forall t, _active_session_tokens w !! t = Some sess ->
                 _active_session_tokens w' !! t = Some sess).
Proof.
  intros Hr Hc. pose proof (reachable_wf w Hr) as Hwf.
  assert (is_Some (sessions w !! sess)) as [s Hs].
  { apply (wf_store w Hwf). by apply (wf_serving w Hwf ws tok st). }
  eexists _, s. cbn. unfold ws_serve_ends. rewrite Hc.
  split; [done|]. split; [done|].
  destruct o as [|code| |e].
  - cbn. rewrite !lookup_alter_eq, Hs. cbn.
    do 4 (split; [done|]). split; [done|]. intros _ _. by split.
  - case_bool_decide as Hcode.
    + cbn. rewrite !lookup_alter_eq, Hs. cbn.
      do 4 (split; [done|]). split.
      * intros _. split; [done|]. eexists. rewrite bool_decide_eq_true_2.
        2:{ apply elem_of_app. right. by apply list_elem_of_singleton. }
        split; [done|]. cbn. intros t Ht.
        apply map_lookup_filter_Some in Ht as [_ Ht]. by cbn in Ht.
      * intros Hne. by subst.
    + cbn. rewrite !lookup_alter_eq, Hs. cbn.
      do 4 (split; [done|]). split.
      * intros ?. by simplify_eq.
      * intros _ _. by split.
  - cbn. rewrite !lookup_alter_eq, Hs. cbn.
    do 4 (split; [done|]). split; [done|]. by intros _ ?.
  - cbn. rewrite !lookup_alter_eq, Hs. cbn.
    do 4 (split; [done|]). split; [done|]. intros _ _. by split.
Qed.

(** *** Claim C5 *)

Lemma reap_one_expired cutoff w sess :
  reap_one cutoff w sess =
  if expired cutoff w sess then Session_close sess w else w.
Proof.
  unfold reap_one, expired. by destruct (timestamp_of w sess).
Qed.

Lemma foldl_reap_filter cutoff l w :
  foldl (reap_one cutoff) w l =
  set_spawned
    (spawned w ++ (Teardown <$> filter (λ sess, expired cutoff w sess = true) l)) w.
Proof.
  revert w. induction l as [|sess l IH]; intros w; cbn [foldl].
  - cbn. rewrite app_nil_r. by destruct w.
  - rewrite IH, filter_cons, reap_one_expired.
    destruct (expired cutoff w sess) eqn:E.
    + rewrite decide_True by done. cbn. by rewrite <- app_assoc.
    + rewrite decide_False by done. by destruct w.
Qed.

(** C5. One pass of the reaper, run at time [now], takes [now - 60 * 60] as
    cutoff and calls [close] on exactly the sessions of the active map whose
    last interaction is before the cutoff, whatever their socket and
    is-active event; nothing else changes. A session whose last interaction
    is 59 minutes old is not closed by the pass. Every turn of the loop
    sleeps [LOOP_INTERVAL], which is 15 minutes, before its pass. *)
Theorem reaper_closes_exactly_expired (now : Q) (w : World) :
  (reaper_pass now w =
     set_spawned
       (spawned w ++
          (Teardown <$>
             filter (λ sess, expired (now - 60 * 60) w sess = true)
                    (active_values w))) w)
  /\ (forall sess s,
        sessions w !! sess = Some s ->
        (Teardown sess ∈
           (Teardown <$>
              filter (λ sess, expired (now - 60 * 60) w sess = true)
                     (active_values w))
         <-> (exists tok, _active_session_tokens w !! tok = Some sess) /\
             (_last_interaction_timestamp s < now - 60 * 60)%Q))
  /\ (forall sess s,
        sessions w !! sess = Some s ->
        (_last_interaction_timestamp s == now - 59 * 60)%Q ->
        Teardown sess ∉
          (Teardown <$>
             filter (λ sess, expired (now - 60 * 60) w sess = true)
                    (active_values w)))
  /\ (LOOP_INTERVAL == 15 * 60)%Q
  /\ (forall rest,
        exists evs w',
          reaper_loop ((true, now) :: rest) w =
            (Sleep LOOP_INTERVAL :: Pass now :: evs, w') /\
          reaper_loop rest (reaper_pass now w) = (evs, w')).
Proof.
  assert (forall sess s,
            sessions w !! sess = Some s ->
            (Teardown sess ∈
               (Teardown <$>
                  filter (λ sess, expired (now - 60 * 60) w sess = true)
                         (active_values w))
             <-> (exists tok, _active_session_tokens w !! tok = Some sess) /\
                 (_last_interaction_timestamp s < now - 60 * 60)%Q)) as Hiff.
  { intros sess s Hs. rewrite list_elem_of_fmap. split.
    - intros (x & Hx & Hin). simplify_eq.
      apply list_elem_of_filter in Hin as [He Hin].
      unfold expired, timestamp_of in He. rewrite Hs in He. cbn in He.
      apply Qltb_true in He. split; [|done].
      unfold active_values in Hin. apply list_elem_of_fmap in Hin as ([t y] & -> & Hin).
      apply elem_of_map_to_list in Hin. by exists t.
    - intros [[t Ht] Hlt]. exists sess. split; [done|].
      apply list_elem_of_filter. split.
      + unfold expired, timestamp_of. rewrite Hs. cbn. by apply Qltb_true.
      + unfold active_values. apply list_elem_of_fmap. exists (t, sess).
        split; [done|]. by apply elem_of_map_to_list. }
  split; [apply foldl_reap_filter|]. split; [exact Hiff|].
  split; [|split].
  - intros sess s Hs Hts Hin. apply (Hiff sess s Hs) in Hin as [_ Hlt].
    rewrite Hts in Hlt. lra.
  - unfold LOOP_INTERVAL. lra.
  - intros rest. cbn [reaper_loop].
    destruct (reaper_loop rest (reaper_pass now w)) as [evs w'].
    by exists evs, w'.
Qed.

End SessionsFacts.

(** ** Pending file uploads: [file_chooser] and [_serve_file_upload] *)

Module Upload.

(** Identity of an [asyncio.Future] object. *)
Definition fid := nat.

(** A [fastapi.UploadFile], as the bytes its [read()] returns. *)
Record UploadFile := mkUploadFile { read : string }.

(** [utils.FileInfo]. *)
Record FileInfo := mkFileInfo {
  name : string;
  size_in_bytes : Z;
  media_type : string;
  _contents : string
}.

(** The three states of an [asyncio.Future]. *)
Inductive future_state :=
| Pending
| Finished (result : list FileInfo)
| Cancelled.

Inductive exn :=
| HTTPException (status_code : Z) (detail : string)
| InvalidStateError
| IndexError.

(** What the endpoint hands back to FastAPI. *)
Inductive outcome :=
| Response (status_code : Z)
| Raise (e : exn).

(** The slice of the server the upload code reads and writes: the
    [TimerDict] of pending uploads, the futures it refers to, and the log of
    the futures that [set_result] has resolved. *)
Record State := mkState {
  _pending_file_uploads : gmap string fid;
  futures : gmap fid future_state;
  next_fid : fid;
  resolutions : list fid
}.

Definition init : State := mkState ∅ ∅ 0 [].

(** [future.set_result(r)]: raises [InvalidStateError] unless the future is
    still pending. *)
Definition set_result (future : fid) (r : list FileInfo) (st : State)
  : option State :=
  match futures st !! future with
  | Some Pending =>
      Some (mkState (_pending_file_uploads st)
              (<[future := Finished r]> (futures st)) (next_fid st)
              (resolutions st ++ [future]))
  | _ => None
  end.

(** Lines 777-780 of [file_chooser]: a new future is stored under the upload
    id. *)
Definition file_chooser_begin (upload_id : string) (st : State) : State :=
  let future := next_fid st in
  mkState (<[upload_id := future]> (_pending_file_uploads st))
          (<[future := Pending]> (futures st))
          (S future) (resolutions st).

(** The [TimerDict] drops an entry whose 15 minutes have passed. *)
Definition evict (upload_token : string) (st : State) : State :=
  mkState (delete upload_token (_pending_file_uploads st))
          (futures st) (next_fid st) (resolutions st).

(** The task suspended in [files = await future] (line 797) is cancelled:
    asyncio cancels the future it awaits. *)
Definition cancel_waiter (future : fid) (st : State) : State :=
  match futures st !! future with
  | Some Pending =>
      mkState (_pending_file_uploads st) (<[future := Cancelled]> (futures st))
              (next_fid st) (resolutions st)
  | _ => st
  end.

Section WithInt.

(** Python's [int(s)] on a string: [None] stands for [ValueError]. *)
Variable int : string -> option Z.

(** Lines 734-750. *)
Fixpoint parse_file_sizes (file_sizes : list string) : exn + list Z :=
  match file_sizes with
  | [] => inr []
  | file_size :: rest =>
      match int file_size with
      | None => inl (HTTPException 422 "Invalid file size.")
      | Some parsed =>
          if (parsed <? 0)%Z
          then inl (HTTPException 422 "Invalid file size.")
          else match parse_file_sizes rest with
               | inl e => inl e
               | inr l => inr (parsed :: l)
               end
      end
  end.

(** The element of the list comprehension of lines 754-762 for index [ii];
    [None] stands for [IndexError]. *)
Definition file_info_at (file_names file_types : list string)
    (parsed_file_sizes : list Z) (file_streams : list UploadFile) (ii : nat)
  : option FileInfo :=
  name ← file_names !! ii;
  size ← parsed_file_sizes !! ii;
  type ← file_types !! ii;
  stream ← file_streams !! ii;
  Some (mkFileInfo name size type (read stream)).

(** [_serve_file_upload], lines 699-767. *)
Definition _serve_file_upload (upload_token : string)
    (file_names file_types file_sizes : list string)
    (file_streams : list UploadFile) (st : State) : outcome * State :=
  match _pending_file_uploads st !! upload_token with
  | None => (Raise (HTTPException 400 "Invalid upload token."), st)
  | Some future =>
      let st1 := mkState (delete upload_token (_pending_file_uploads st))
                   (futures st) (next_fid st) (resolutions st) in
      let n_names := length file_names in
      let n_types := length file_types in
      let n_sizes := length file_sizes in
      let n_streams := length file_streams in
      if negb (Nat.eqb n_names n_types) || negb (Nat.eqb n_names n_sizes)
         || negb (Nat.eqb n_names n_streams)
      then (Raise (HTTPException 422
              "Inconsistent number of files between the different message parts."),
            st1)
      else
        match parse_file_sizes file_sizes with
        | inl e => (Raise e, st1)
        | inr parsed_file_sizes =>
            match mapM (file_info_at file_names file_types parsed_file_sizes
                          file_streams) (seq 0 n_names) with
            | None => (Raise IndexError, st1)
            | Some infos =>
                match set_result future infos st1 with
                | None => (Raise InvalidStateError, st1)
                | Some st2 => (Response 200, st2)
                end
            end
        end
  end.

Inductive action :=
| FileChooser (upload_id : string)
| Upload (upload_token : string) (file_names file_types file_sizes : list string)
         (file_streams : list UploadFile)
| Evict (upload_token : string)
| CancelWaiter (future : fid).

Definition exec (a : action) (st : State) : State :=
  match a with
  | FileChooser upload_id => file_chooser_begin upload_id st
  | Upload tok names types sizes streams =>
      (_serve_file_upload tok names types sizes streams st).2
  | Evict tok => evict tok st
  | CancelWaiter future => cancel_waiter future st
  end.

Definition run (l : list action) (st : State) : State := foldl (λ s a, exec a s) st l.

Inductive reachable : State -> Prop :=
| reachable_init : reachable init
| reachable_step a st : reachable st -> reachable (exec a st).

End WithInt.

End Upload.

Module UploadFacts.
Import Upload.

Section WithInt.

Variable int : string -> option Z.

(** The state once the token has been popped. *)
Definition popped (upload_token : string) (st : State) : State :=
  mkState (delete upload_token (_pending_file_uploads st))
          (futures st) (next_fid st) (resolutions st).

(** The state once the token has been popped and its future resolved. *)
Definition resolved (upload_token : string) (future : fid)
    (infos : list FileInfo) (st : State) : State :=
  mkState (delete upload_token (_pending_file_uploads st))
          (<[future := Finished infos]> (futures st)) (next_fid st)
          (resolutions st ++ [future]).




Lemma parse_file_sizes_error sizes e :
  parse_file_sizes int sizes = inl e ->
  e = HTTPException 422 "Invalid file size.".
Proof.
  induction sizes as [|s sizes IH]; cbn; [done|].
  destruct (int s) as [z|]; [|by intros; simplify_eq].
  destruct (z <? 0)%Z; [by intros; simplify_eq|].
  destruct (parse_file_sizes int sizes); [|done].
  intros; simplify_eq. by apply IH.
Qed.




(** What a call leaves behind: the state itself when the token is unknown;
    otherwise the token is gone, and the future is resolved or untouched. *)
Lemma serve_file_upload_state tok names types sizes streams st :
  let r := _serve_file_upload int tok names types sizes streams st in
  match _pending_file_uploads st !! tok with
  | None => r = (Raise (HTTPException 400 "Invalid upload token."), st)
  | Some future =>
      (r.1 <> Response 200 /\ r.2 = popped tok st) \/
      (exists infos,
         futures st !! future = Some Pending /\
         r = (Response 200, resolved tok future infos st))
  end.
Proof.
  cbn. unfold _serve_file_upload.
  destruct (_pending_file_uploads st !! tok) as [future|]; [|done].
  destruct (negb _ || negb _ || negb _); [by left|].
  destruct (parse_file_sizes int sizes) as [e|parsed]; [by left|].
  destruct (mapM _ _) as [infos|]; [|by left].
  unfold set_result. cbn.
  destruct (futures st !! future) as [[| |]|] eqn:Ef; try by left.
  right. by exists infos.
Qed.

(** Futures in the pending map are unresolved, each under one token. *)
Record inv (st : State) : Prop := mk_inv {
  inv_fresh : forall tok future,
    _pending_file_uploads st !! tok = Some future ->
    future < next_fid st /\ future ∉ resolutions st;
  inv_inj : forall tok1 tok2 future,
    _pending_file_uploads st !! tok1 = Some future ->
    _pending_file_uploads st !! tok2 = Some future -> tok1 = tok2;
  inv_nodup : NoDup (resolutions st);
  inv_bound : forall future, future ∈ resolutions st -> future < next_fid st
}.

Lemma inv_init : inv init.
Proof.
  split; cbn.
  - intros tok future H. by rewrite lookup_empty in H.
  - intros tok1 tok2 future H. by rewrite lookup_empty in H.
  - constructor.
  - intros future H. by apply elem_of_nil in H.
Qed.

Lemma inv_popped tok st : inv st -> inv (popped tok st).
Proof.
  intros [Hf Hi Hn Hb]. split; cbn; try done.
  - intros t future H. apply lookup_delete_Some in H as [_ H]. eauto.
  - intros t1 t2 future H1 H2.
    apply lookup_delete_Some in H1 as [_ H1].
    apply lookup_delete_Some in H2 as [_ H2]. eauto.
Qed.

Lemma inv_exec a st : inv st -> inv (exec int a st).
Proof.
  intros Hinv. destruct a as [upload_id|tok names types sizes streams|tok|future];
    cbn.
  - destruct Hinv as [Hf Hi Hn Hb]. split; cbn; try done.
    + intros t future. destruct (decide (t = upload_id)) as [->|Hne].
      * rewrite lookup_insert_eq. intros ?; simplify_eq. split; [lia|].
        intros Hin. apply Hb in Hin. lia.
      * rewrite lookup_insert_ne by done. intros H.
        destruct (Hf _ _ H). split; [lia|done].
    + intros t1 t2 future H1 H2.
      destruct (decide (t1 = upload_id)) as [->|Hne1];
        destruct (decide (t2 = upload_id)) as [->|Hne2]; try done.
      * rewrite lookup_insert_eq in H1. rewrite lookup_insert_ne in H2 by done.
        simplify_eq. destruct (Hf _ _ H2). lia.
      * rewrite lookup_insert_eq in H2. rewrite lookup_insert_ne in H1 by done.
        simplify_eq. destruct (Hf _ _ H1). lia.
      * rewrite lookup_insert_ne in H1, H2 by done. eauto.
    + intros future Hin. apply Hb in Hin. lia.
  - pose proof (serve_file_upload_state tok names types sizes streams st) as H.
    cbn in H. destruct (_pending_file_uploads st !! tok) as [future|] eqn:Et.
    + destruct H as [[_ ->]|(infos & Hp & ->)]; [by apply inv_popped|].
      destruct Hinv as [Hf Hi Hn Hb]. cbn. split; cbn.
      * intros t fut H. apply lookup_delete_Some in H as [Hne H].
        destruct (Hf _ _ H) as [Hlt Hnin]. split; [done|].
        rewrite elem_of_app, list_elem_of_singleton. intros [? | ->]; [done|].
        apply Hne. by eapply Hi.
      * intros t1 t2 fut H1 H2.
        apply lookup_delete_Some in H1 as [_ H1].
        apply lookup_delete_Some in H2 as [_ H2]. eauto.
      * apply NoDup_app. split; [done|]. split; [|apply NoDup_singleton].
        intros x Hx Hx'. apply list_elem_of_singleton in Hx' as ->.
        by destruct (Hf _ _ Et).
      * intros fut. rewrite elem_of_app, list_elem_of_singleton.
        intros [? | ->]; [eauto|]. by destruct (Hf _ _ Et).
    + by rewrite H.
  - by apply inv_popped.
  - unfold cancel_waiter. destruct (futures st !! future) as [[| |]|]; try done.
    destruct Hinv as [Hf Hi Hn Hb]. by split.
Qed.

Lemma reachable_inv st : reachable int st -> inv st.
Proof. induction 1; [apply inv_init | by apply inv_exec]. Qed.

(** *** Claim C6 *)

(** C6. A call of the upload endpoint with a token that is not in the
    pending-uploads map fails with 400 and changes nothing. A call with a
    token that is in the map removes the entry, whatever the call then does,
    so the token is gone after every call and any second call with it fails
    with 400. A call resolves no future but the one it popped, and in every
    reachable state no future has been resolved twice. *)
Theorem upload_token_single_use
    (st : State) (tok : string) (names types sizes : list string)
    (streams : list UploadFile) :
  let r := _serve_file_upload int tok names types sizes streams st in
  (_pending_file_uploads st !! tok = None ->
     r = (Raise (HTTPException 400 "Invalid upload token."), st))
  /\ (is_Some (_pending_file_uploads st !! tok) ->
      _pending_file_uploads r.2 = delete tok (_pending_file_uploads st))
  /\ _pending_file_uploads r.2 !! tok = None
  /\ (forall names' types' sizes' streams',
        _serve_file_upload int tok names' types' sizes' streams' r.2 =
          (Raise (HTTPException 400 "Invalid upload token."), r.2))
  /\ (resolutions r.2 = resolutions st \/
      exists future,
        _pending_file_uploads st !! tok = Some future /\
        resolutions r.2 = resolutions st ++ [future])
  /\ (reachable int st ->
      NoDup (resolutions st) /\ NoDup (resolutions r.2)).
Proof.
  cbn zeta.
  pose proof (serve_file_upload_state tok names types sizes streams st) as H.
  cbn zeta in H.
  set (r := _serve_file_upload int tok names types sizes streams st) in *.
  assert (_pending_file_uploads r.2 !! tok = None) as Hgone.
  { destruct (_pending_file_uploads st !! tok) as [future|] eqn:Et.
    - destruct H as [[_ ->]|(infos & _ & ->)]; cbn; apply lookup_delete_eq.
    - by rewrite H. }
  split; [|split; [|split; [|split; [|split]]]].
  - intros Hn. by rewrite Hn in H.
  - intros [future Hf]. rewrite Hf in H.
    by destruct H as [[_ ->]|(infos & _ & ->)].
  - done.
  - intros names' types' sizes' streams'. unfold _serve_file_upload at 1.
    by rewrite Hgone.
  - destruct (_pending_file_uploads st !! tok) as [future|] eqn:Et.
    + destruct H as [[_ ->]|(infos & _ & ->)]; [by left|].
      right. by exists future.
    + left. by rewrite H.
  - intros Hr. split.
    + apply inv_nodup. by apply reachable_inv.
    + apply inv_nodup. apply reachable_inv.
      apply (reachable_step int (Upload tok names types sizes streams) st Hr).
Qed.

(** *** Claim C7 *)


End WithInt.

End UploadFacts.

(** ** Python's [int] on ASCII text

    The instance of [int] used in the examples: surrounding whitespace is
    stripped, one sign is allowed, and the rest must be decimal digits, with
    single underscores allowed between digits. *)

Module PyInt.

Definition is_space (c : ascii) : bool :=
  let n := nat_of_ascii c in
  (Nat.leb 9 n && Nat.leb n 13) || (Nat.leb 28 n && Nat.leb n 32).

Definition digit (c : ascii) : option Z :=
  let n := nat_of_ascii c in
  if Nat.leb 48 n && Nat.leb n 57 then Some (Z.of_nat (n - 48)) else None.

Fixpoint lstrip (l : list ascii) : list ascii :=
  match l with
  | c :: l' => if is_space c then lstrip l' else l
  | [] => []
  end.

Definition strip (l : list ascii) : list ascii :=
  rev (lstrip (rev (lstrip l))).

Fixpoint digits (acc : Z) (after_digit : bool) (l : list ascii) : option Z :=
  match l with
  | [] => if after_digit then Some acc else None
  | c :: l' =>
      if Ascii.eqb c "_"%char
      then (if after_digit then digits acc false l' else None)
      else match digit c with
           | Some d => digits (10 * acc + d) true l'
           | None => None
           end
  end.

Definition int (s : string) : option Z :=
  match strip (String.list_ascii_of_string s) with
  | c :: l =>
      if Ascii.eqb c "-"%char then Z.opp <$> digits 0 false l
      else if Ascii.eqb c "+"%char then digits 0 false l
      else digits 0 false (c :: l)
  | [] => None
  end.

Example int_12 : int "12" = Some 12%Z.
Proof. reflexivity. Qed.

Example int_minus_1 : int "-1" = Some (-1)%Z.
Proof. reflexivity. Qed.

Example int_abc : int "abc" = None.
Proof. reflexivity. Qed.

Example int_spaces_underscore : int " +1_000 " = Some 1000%Z.
Proof. reflexivity. Qed.

Example int_trailing_underscore : int "1_" = None.
Proof. reflexivity. Qed.

Example int_empty : int "" = None.
Proof. reflexivity. Qed.

End PyInt.

(** ** Shutdown: the [finally] block of [_lifespan] (lines 314-334) *)

Module Lifespan.
Import Sessions.

(** How an awaited coroutine ends: it returns, or it raises. *)
Inductive result :=
| Returns
| Fails (e : string).

(** How the app's [on_app_close] hook ends. [HookRaisesException] is an
    exception that [except Exception] catches; [HookRaisesOther] is a
    [BaseException] that it does not. *)
Inductive hook_result :=
| HookReturns
| HookRaisesException (e : string)
| HookRaisesOther (e : string).

Inductive event :=
| DebugClosing (n : nat)           (* the debug line with the session count *)
| Gather (coros : list sid)        (* the teardowns handed to [asyncio.gather] *)
| PrintException (e : string)      (* [traceback.print_exception] *)
| DebugCallingOnAppClose
| HookCalled
| PrintHookFailure (e : string).   (* the two prints of [_call_on_app_close] *)

Section WithSessions.

(** How the teardown [_close(close_remote_session=True)] of each session
    ends; [rio.Session] is not among the sources. *)
Variable _close : sid -> result.

(** [self.app._on_app_close], with the way it ends when it is set. *)
Variable _on_app_close : option hook_result.

(** [asyncio.gather] with [return_exceptions=True]: every coroutine is
    run to its end and its result, or the exception it raised, is put at its
    position of the result list. *)
Definition gather (coros : list sid) : list result := _close <$> coros.

(** Lines 328-332. *)
Fixpoint print_failures (results : list result) : list event :=
  match results with
  | [] => []
  | Fails e :: rest => PrintException e :: print_failures rest
  | Returns :: rest => print_failures rest
  end.

(** [_call_on_app_close], lines 275-290: the events, and the exception that
    leaves the function if any. *)
Definition _call_on_app_close : list event * option string :=
  match _on_app_close with
  | None => ([DebugCallingOnAppClose], None)
  | Some HookReturns => ([DebugCallingOnAppClose; HookCalled], None)
  | Some (HookRaisesException e) =>
      ([DebugCallingOnAppClose; HookCalled; PrintHookFailure e], None)
  | Some (HookRaisesOther e) =>
      ([DebugCallingOnAppClose; HookCalled], Some e)
  end.

(** The [finally] block. *)
Definition shutdown (w : World) : list event * option string :=
  let coros := active_values w in
  let results := gather coros in
  let '(evs, raised) := _call_on_app_close in
  ([DebugClosing (size (_active_session_tokens w)); Gather coros]
     ++ print_failures results ++ evs,
   raised).

End WithSessions.

End Lifespan.

Module LifespanFacts.
Import Sessions Lifespan.

Section WithSessions.

Variable _close : sid -> result.
Variable _on_app_close : option hook_result.




(** *** Claim C9 *)


End WithSessions.

End LifespanFacts.

(** ** Routes and weakly hosted assets *)

Module Assets.

(** [assets.BytesAsset] and [assets.PathAsset], with the [secret_id] every
    hosted asset has. *)
Inductive Asset :=
| BytesAsset (secret_id : string) (data : string) (media_type : option string)
| PathAsset (secret_id : string) (path : string) (media_type : option string).

Definition secret_id (a : Asset) : string :=
  match a with
  | BytesAsset id _ _ => id
  | PathAsset id _ _ => id
  end.

(** [weakly_host_asset], lines 339-349: the URL fragment it returns and the
    updated [_assets]. *)
Definition weakly_host_asset (asset : Asset) (_assets : gmap string Asset)
  : string * gmap string Asset :=
  ("/rio/assets/temp/" +:+ secret_id asset,
   <[secret_id asset := asset]> _assets).

(** The weak dictionary loses an entry when the asset object dies. *)
Definition release (id : string) (_assets : gmap string Asset)
  : gmap string Asset :=
  delete id _assets.

(** The endpoints the routes lead to. *)
Inductive handler :=
| to_serve_robots
| to_serve_sitemap
| to_serve_favicon
| to_serve_frontend_asset
| to_serve_special_asset
| to_serve_hosted_asset
| to_serve_user_asset
| to_serve_temp_asset
| to_serve_icon
| to_serve_file_upload
| to_serve_websocket
| to_serve_index.

Inductive method := GET | PUT.

#[global] Instance method_eq_dec : EqDecision method.
Proof. solve_decision. Defined.

(** A route path: a literal, a prefix followed by a [{name:path}] parameter
    (any rest), or a prefix followed by a [{name}] parameter (a rest that is
    not empty and has no slash). *)
Inductive pattern :=
| Literal (path : string)
| PathParam (prefix : string)
| SegmentParam (prefix : string).

(** An HTTP route with its methods, or a websocket route. *)
Inductive route :=
| ApiRoute (p : pattern) (methods : list method) (endpoint : handler)
| WebSocketRoute (p : pattern) (endpoint : handler).

(** The routes of [__init__], lines 212-256, in the order they are added;
    [add_api_route] without [methods] registers GET. *)
Definition routes : list route :=
  [ ApiRoute (Literal "/robots.txt") [GET] to_serve_robots;
    ApiRoute (Literal "/rio/sitemap") [GET] to_serve_sitemap;
    ApiRoute (Literal "/rio/favicon.png") [GET] to_serve_favicon;
    ApiRoute (PathParam "/rio/frontend/assets/") [GET] to_serve_frontend_asset;
    ApiRoute (PathParam "/rio/asset/special/") [GET] to_serve_special_asset;
    ApiRoute (PathParam "/rio/asset/hosted/") [GET] to_serve_hosted_asset;
    ApiRoute (PathParam "/rio/asset/user/") [GET] to_serve_user_asset;
    ApiRoute (PathParam "/rio/asset/temp/") [GET] to_serve_temp_asset;
    ApiRoute (PathParam "/rio/icon/") [GET] to_serve_icon;
    ApiRoute (SegmentParam "/rio/upload/") [PUT] to_serve_file_upload;
    WebSocketRoute (Literal "/rio/ws") to_serve_websocket;
    ApiRoute (PathParam "/") [GET] to_serve_index ].

Fixpoint strip_prefix (p s : string) : option string :=
  match p with
  | EmptyString => Some s
  | String c p' =>
      match s with
      | String d s' => if Ascii.eqb c d then strip_prefix p' s' else None
      | EmptyString => None
      end
  end.

Fixpoint has_slash (s : string) : bool :=
  match s with
  | EmptyString => false
  | String c s' => Ascii.eqb c "/"%char || has_slash s'
  end.

(** The value of the path parameter when [path] matches the pattern. *)
Definition match_pattern (p : pattern) (path : string) : option string :=
  match p with
  | Literal l => if String.eqb l path then Some "" else None
  | PathParam prefix => strip_prefix prefix path
  | SegmentParam prefix =>
      match strip_prefix prefix path with
      | Some (String c rest) =>
          if has_slash (String c rest) then None else Some (String c rest)
      | _ => None
      end
  end.

Inductive dispatched :=
| Handle (endpoint : handler) (param : string)
| MethodNotAllowed
| NotFound.

(** The router's loop over an HTTP request: the first route whose path and
    method both match handles it; a route that matches the path only is
    remembered and answers 405 if no route matches fully. *)
Fixpoint dispatch_from (rs : list route) (partial : bool) (m : method)
    (path : string) : dispatched :=
  match rs with
  | [] => if partial then MethodNotAllowed else NotFound
  | WebSocketRoute _ _ :: rest => dispatch_from rest partial m path
  | ApiRoute p methods endpoint :: rest =>
      match match_pattern p path with
      | Some param =>
          if bool_decide (m ∈ methods) then Handle endpoint param
          else dispatch_from rest true m path
      | None => dispatch_from rest partial m path
      end
  end.

Definition dispatch (m : method) (path : string) : dispatched :=
  dispatch_from routes false m path.

Inductive response :=
| Status (status_code : Z)
| Content (content : string) (media_type : option string)
| RangeRequests (file_path : string) (media_type : option string).

(** [_serve_temp_asset], lines 626-652. *)
Definition _serve_temp_asset (asset_id : string) (_assets : gmap string Asset)
  : response :=
  match _assets !! asset_id with
  | None => Status 404
  | Some (BytesAsset _ data media_type) => Content data media_type
  | Some (PathAsset _ path media_type) => RangeRequests path media_type
  end.

(** *** Claim C10 *)

(** C10, evaluated on the code. The fragment [weakly_host_asset] returns has
    the prefix [/rio/assets/temp/], the temp-asset route has the prefix
    [/rio/asset/temp/]: a GET of the returned fragment matches no asset
    route and is handled by the index handler. The asset is served only
    under the route's own prefix. *)
Theorem hosted_fragment_reaches_index (asset : Asset) (_assets : gmap string Asset) :
  let r := weakly_host_asset asset _assets in
  dispatch GET r.1 = Handle to_serve_index ("rio/assets/temp/" +:+ secret_id asset)
  /\ dispatch GET r.1 <> Handle to_serve_temp_asset (secret_id asset)
  /\ dispatch GET ("/rio/asset/temp/" +:+ secret_id asset) =
       Handle to_serve_temp_asset (secret_id asset)
  /\ _serve_temp_asset (secret_id asset) r.2 =
       match asset with
       | BytesAsset _ data media_type => Content data media_type
       | PathAsset _ path media_type => RangeRequests path media_type
       end.
Proof.
  cbn zeta. split; [reflexivity|]. split; [discriminate|].
  split; [reflexivity|].
  unfold _serve_temp_asset, weakly_host_asset. cbn [snd].
  rewrite lookup_insert_eq. by destruct asset.
Qed.

End Assets.

(** ** The theorems on concrete runs *)

Module Examples.
Import Sessions SessionsFacts.

Definition request0 : Request :=
  mkRequest "http://localhost:8000/" (Some ("127.0.0.1", 50000%Z)).

Definition session0 : Session := mkSession (Some 0) true 0%Q None.

(** The world after a run from the initial world. *)
Definition after (l : list action) : World := default init (run l init).

Lemma after_reachable l w : run l init = Some w -> reachable w.
Proof. apply run_reachable, reachable_init. Qed.

(** A page was requested: the token is latent. *)
Definition w_latent : World := after [Index "tokA" request0].

(** The browser's websocket passed the gate and was accepted. *)
Definition w_accepted : World :=
  after [Index "tokA" request0; Connect 0 "tokA"; PassGate 0].

(** The token was looked up; the session is being created. *)
Definition w_creating : World :=
  after [Index "tokA" request0; Connect 0 "tokA"; PassGate 0; Lookup 0].

(** The session is being served. *)
Definition w_serving : World :=
  after [Index "tokA" request0; Connect 0 "tokA"; PassGate 0; Lookup 0;
         Created 0 (CreateReturned session0)].


(** A websocket with a token nobody issued was accepted. *)
Definition w_unknown : World := after [Connect 0 "nope"; PassGate 0].

(** A page was requested, then new sessions were disabled. *)
Definition w_gate_closed : World :=
  after [Index "tokA" request0; DisableNewSessions].

Lemma w_accepted_reachable : reachable w_accepted.
Proof.
  apply (after_reachable [Index "tokA" request0; Connect 0 "tokA"; PassGate 0]).
  vm_compute. reflexivity.
Qed.

Lemma w_serving_reachable : reachable w_serving.
Proof.
  apply (after_reachable
           [Index "tokA" request0; Connect 0 "tokA"; PassGate 0; Lookup 0;
            Created 0 (CreateReturned session0)]).
  vm_compute. reflexivity.
Qed.


Lemma token_in_at_most_one_map_witness :
  reachable w_accepted
  /\ ¬ (in_latent w_accepted "tokA" /\ in_active w_accepted "tokA")
  /\ (_latent_session_tokens w_latent !! "tokA" = Some request0 /\
      ¬ in_active w_latent "tokA")
  /\ (¬ in_latent w_creating "tokA" /\ ¬ in_active w_creating "tokA")
  /\ (¬ in_latent w_serving "tokA" /\
      _active_session_tokens w_serving !! "tokA" = Some 0).
Proof.
  split; [exact w_accepted_reachable|].
  split; [exact (proj1 (token_in_at_most_one_map w_accepted "tokA"
                          w_accepted_reachable))|].
  split; [|split].
  - destruct (token_in_at_most_one_map init "tokA" reachable_init)
      as (_ & H & _).
    apply (H request0 w_latent). vm_compute. reflexivity.
  - destruct (token_in_at_most_one_map w_accepted "tokA" w_accepted_reachable)
      as (_ & _ & _ & H & _).
    apply (H 0 WsAccepted w_creating).
    + vm_compute. reflexivity.
    + exists request0. vm_compute. reflexivity.
    + vm_compute. reflexivity.
  - assert (reachable w_creating) as Hr.
    { apply (after_reachable
               [Index "tokA" request0; Connect 0 "tokA"; PassGate 0; Lookup 0]).
      vm_compute. reflexivity. }
    destruct (token_in_at_most_one_map w_creating "tokA" Hr)
      as (_ & _ & _ & _ & H).
    apply (H 0 WsAccepted request0 session0 w_serving).
    + vm_compute. reflexivity.
    + vm_compute. reflexivity.
Defined.

Lemma unknown_token_rejected_witness :
  _latent_session_tokens w_unknown !! "nope" = None
  /\ _active_session_tokens w_unknown !! "nope" = None
  /\ exists w',
       exec (Lookup 0) w_unknown = Some w' /\
       connections w' !! 0 =
         Some (mkConnection "nope" (WsClosed 3000 "Invalid session token.")
                 Returned) /\
       _latent_session_tokens w' = _latent_session_tokens w_unknown /\
       _active_session_tokens w' = _active_session_tokens w_unknown /\
       sessions w' = sessions w_unknown /\ next_sid w' = next_sid w_unknown /\
       spawned w' = spawned w_unknown.
Proof.
  assert (_latent_session_tokens w_unknown !! "nope" = None) as Hl
    by (vm_compute; reflexivity).
  assert (_active_session_tokens w_unknown !! "nope" = None) as Ha
    by (vm_compute; reflexivity).
  split; [exact Hl|]. split; [exact Ha|].
  apply (proj1 (unknown_token_rejected w_unknown 0 "nope" Hl Ha) WsAccepted).
  vm_compute. reflexivity.
Defined.

(** The run that the wording of C3 excludes: the upgrade arrives while the
    gate is closed; the socket is not accepted and the handler cannot move;
    once the gate is reopened the same handler accepts the socket, finds the
    token and ends up serving a new session. *)
Lemma gate_closed_counterexample :
  exists w1 w2,
    _can_create_new_sessions w_gate_closed = false /\
    exec (Connect 0 "tokA") w_gate_closed = Some w1 /\
    connections w1 !! 0 = Some (mkConnection "tokA" WsConnecting AwaitGate) /\
    exec (PassGate 0) w1 = None /\
    run [EnableNewSessions; PassGate 0; Lookup 0;
         Created 0 (CreateReturned session0)] w1 = Some w2 /\
    connections w2 !! 0 = Some (mkConnection "tokA" WsAccepted (Serving 0)) /\
    _active_session_tokens w2 !! "tokA" = Some 0.
Proof.
  eexists _, _. vm_compute. repeat split; reflexivity.
Qed.

Lemma gate_closed_suspends_upgrade_witness :
  connections w_gate_closed !! 0 = None
  /\ _can_create_new_sessions w_gate_closed = false
  /\ exists w1,
       exec (Connect 0 "tokA") w_gate_closed = Some w1 /\
       connections w1 !! 0 = Some (mkConnection "tokA" WsConnecting AwaitGate) /\
       exec (PassGate 0) w1 = None /\
       exec (Lookup 0) w1 = None /\
       (forall l w2,
          EnableNewSessions ∉ l -> run l w1 = Some w2 ->
          connections w2 !! 0 = Some (mkConnection "tokA" WsConnecting AwaitGate)) /\
       (forall l w2,
          EnableNewSessions ∉ l -> run l w1 = Some w2 ->
          exec (PassGate 0) (enable_new_session_creation w2) =
            Some (set_conn 0 (mkConnection "tokA" WsAccepted AwaitAccept)
                    (enable_new_session_creation w2))).
Proof.
  assert (connections w_gate_closed !! 0 = None) as Hc
    by (vm_compute; reflexivity).
  assert (_can_create_new_sessions w_gate_closed = false) as Hg
    by (vm_compute; reflexivity).
  split; [exact Hc|]. split; [exact Hg|].
  exact (gate_closed_suspends_upgrade w_gate_closed 0 "tokA" Hc Hg).
Defined.


Lemma serve_end_disposition_witness :
  reachable w_serving
  /\ connections w_serving !! 0 =
       Some (mkConnection "tokA" WsAccepted (Serving 0))
  /\ (exists w',
        exec (ServeEnds 0 (ServeDisconnect 1006)) w_serving = Some w' /\
        _websocket <$> sessions w' !! 0 = Some None /\
        _is_active_event <$> sessions w' !! 0 = Some false /\
        _active_session_tokens w' !! "tokA" = Some 0 /\
        spawned w' = spawned w_serving)
  /\ (exists w' w'',
        exec (ServeEnds 0 (ServeDisconnect 1001)) w_serving = Some w' /\
        spawned w' = spawned w_serving ++ [Teardown 0] /\
        exec (RunTeardown 0) w' = Some w'' /\
        forall t, _active_session_tokens w'' !! t <> Some 0).
Proof.
  assert (connections w_serving !! 0 =
            Some (mkConnection "tokA" WsAccepted (Serving 0))) as Hc
    by (vm_compute; reflexivity).
  split; [exact w_serving_reachable|]. split; [exact Hc|]. split.
  - destruct (serve_end_disposition w_serving 0 "tokA" WsAccepted 0
                (ServeDisconnect 1006) w_serving_reachable Hc)
      as (w' & s & He & _ & _ & Hw & Hev & Hact & _ & Hkeep).
    exists w'. split; [exact He|]. split; [exact Hw|]. split; [exact Hev|].
    destruct Hkeep as [Hsp Hin]; [discriminate|discriminate|].
    split; [|exact Hsp]. apply Hin. vm_compute. reflexivity.
  - destruct (serve_end_disposition w_serving 0 "tokA" WsAccepted 0
                (ServeDisconnect 1001) w_serving_reachable Hc)
      as (w' & s & He & _ & _ & _ & _ & _ & Hclose & _).
    destruct (Hclose eq_refl) as (Hsp & w'' & Hrun & Hgone).
    exists w', w''. split; [exact He|]. split; [exact Hsp|].
    split; [exact Hrun|]. exact Hgone.
Defined.

(** A reaper pass at time 10000 over three sessions: one last heard of 59
    minutes ago and still connected, one 61 minutes ago and still connected,
    one 61 minutes ago and disconnected. The last two are closed. *)
Definition w_three_sessions : World :=
  mkWorld true ∅
    (<["t59" := 0]> (<["t61" := 1]> (<["t61d" := 2]> ∅)))
    (<[0 := mkSession (Some 0) true (10000 - 59 * 60) (Some "t59")]>
       (<[1 := mkSession (Some 1) true (10000 - 61 * 60) (Some "t61")]>
          (<[2 := mkSession None false (10000 - 61 * 60) (Some "t61d")]> ∅)))
    3 ∅ [] {["t59"; "t61"; "t61d"]}.

Lemma reaper_closes_exactly_expired_witness :
  (Teardown 0 ∉ spawned (reaper_pass 10000 w_three_sessions))
  /\ Teardown 1 ∈ spawned (reaper_pass 10000 w_three_sessions)
  /\ Teardown 2 ∈ spawned (reaper_pass 10000 w_three_sessions)
  /\ length (spawned (reaper_pass 10000 w_three_sessions)) = 2.
Proof.
  destruct (reaper_closes_exactly_expired 10000 w_three_sessions)
    as (Heq & Hiff & H59 & _).
  rewrite Heq. cbn [spawned set_spawned w_three_sessions app].
  split; [|split; [|split]].
  - apply (H59 0 (mkSession (Some 0) true (10000 - 59 * 60) (Some "t59"))).
    + vm_compute. reflexivity.
    + reflexivity.
  - apply (Hiff 1 (mkSession (Some 1) true (10000 - 61 * 60) (Some "t61"))).
    + vm_compute. reflexivity.
    + split; [exists "t61"; vm_compute; reflexivity|]. cbn. lra.
  - apply (Hiff 2 (mkSession None false (10000 - 61 * 60) (Some "t61d"))).
    + vm_compute. reflexivity.
    + split; [exists "t61d"; vm_compute; reflexivity|]. cbn. lra.
  - vm_compute. reflexivity.
Defined.

Import Upload UploadFacts.

(** One upload was requested under the token ["up1"]. *)
Definition st_pending : State := file_chooser_begin "up1" init.




Lemma upload_token_single_use_witness :
  let r := _serve_file_upload PyInt.int "up1" ["a.txt"] ["text/plain"] ["3"]
             [mkUploadFile "abc"] st_pending in
  r.1 = Response 200
  /\ (_serve_file_upload PyInt.int "up1" ["a.txt"] ["text/plain"] ["3"]
        [mkUploadFile "abc"] r.2).1
     = Raise (HTTPException 400 "Invalid upload token.")
  /\ resolutions r.2 = [0].
Proof.
  cbn zeta.
  destruct (upload_token_single_use PyInt.int st_pending "up1" ["a.txt"]
              ["text/plain"] ["3"] [mkUploadFile "abc"])
    as (_ & _ & _ & Hsecond & _).
  split; [vm_compute; reflexivity|].
  split; [by rewrite Hsecond|]. vm_compute. reflexivity.
Defined.

Import Lifespan LifespanFacts.

(** Shutdown with two sessions, the first of which fails to close, and a
    close hook that returns. *)
Example shutdown_with_failing_session :
  let _close := λ sess : sid, if Nat.eqb sess 0 then Fails "boom" else Returns in
  let w := mkWorld true ∅ (<["a" := 0]> (<["b" := 1]> ∅)) ∅ 2 ∅ [] ∅ in
  shutdown _close (Some HookReturns) w =
    ([DebugClosing 2; Gather [0; 1]; PrintException "boom";
      DebugCallingOnAppClose; HookCalled], None).
Proof. vm_compute. reflexivity. Qed.

Import Assets.

Example hosted_fragment_abc :
  let asset := BytesAsset "abc" "payload" (Some "text/plain") in
  let r := weakly_host_asset asset ∅ in
  r.1 = "/rio/assets/temp/abc"
  /\ dispatch GET r.1 = Handle to_serve_index "rio/assets/temp/abc"
  /\ dispatch GET "/rio/asset/temp/abc" = Handle to_serve_temp_asset "abc"
  /\ _serve_temp_asset "abc" r.2 = Content "payload" (Some "text/plain").
Proof. vm_compute. repeat split; reflexivity. Qed.

End Examples.

(** ** More on the route table *)

Module RoutingFacts.
Import Assets.

(** [url_for_user_asset], lines 336-337, on the text of the relative path. *)
Definition url_for_user_asset (relative_asset_path : string) : string :=
  "/rio/assets/user/" +:+ relative_asset_path.

(** The [upload_url] that [file_chooser] sends to the frontend, line 791. *)
Definition upload_url (upload_id : string) : string :=
  "/rio/upload/" +:+ upload_id.

(** The path of a route matches [path]. *)
Definition path_matches (path : string) (r : route) : bool :=
  match r with
  | ApiRoute p _ _ => bool_decide (is_Some (match_pattern p path))
  | WebSocketRoute _ _ => false
  end.

(** The route does not take method [m]. *)
Definition refuses (m : method) (r : route) : Prop :=
  match r with
  | ApiRoute _ methods _ => m ∉ methods
  | WebSocketRoute _ _ => True
  end.

(** Routes that refuse the method only decide between 404 and 405. *)
Lemma dispatch_from_refusing rs rest partial m path :
  Forall (refuses m) rs ->
  dispatch_from (rs ++ rest) partial m path =
  dispatch_from rest (partial || existsb (path_matches path) rs) m path.
Proof.
  intros Hrs. revert partial.
  induction Hrs as [|r rs Hr _ IH]; intros partial; cbn.
  - by rewrite orb_false_r.
  - destruct r as [p methods endpoint|p endpoint]; cbn.
    + cbn in Hr. destruct (match_pattern p path) as [param|] eqn:E.
      * rewrite bool_decide_eq_false_2 by done. rewrite IH.
        rewrite bool_decide_eq_true_2 by eauto. cbn.
        by rewrite orb_true_r.
      * rewrite IH. rewrite bool_decide_eq_false_2 by (by intros [? ?]).
        done.
    + by rewrite IH.
Qed.

Lemma strip_prefix_app p s : strip_prefix p (p +:+ s) = Some s.
Proof.
  induction p as [|c p IH]; [done|].
  change (String c p +:+ s) with (String c (p +:+ s)).
  cbn [strip_prefix]. by rewrite Ascii.eqb_refl.
Qed.

Lemma strip_prefix_Some p s rest :
  strip_prefix p s = Some rest <-> s = p +:+ rest.
Proof.
  revert s. induction p as [|c p IH]; intros s.
  - cbn. split; intros ?; by simplify_eq.
  - change (String c p +:+ rest) with (String c (p +:+ rest)).
    cbn [strip_prefix].
    destruct s as [|d s]; [split; intros ?; by simplify_eq|].
    destruct (Ascii.eqb_spec c d) as [->|Hne].
    + rewrite IH. split; intros ?; by simplify_eq.
    + split; intros ?; by simplify_eq.
Qed.

Lemma GET_in_GET : GET ∈ [GET].
Proof. by apply list_elem_of_singleton. Qed.

Lemma PUT_in_PUT : PUT ∈ [PUT].
Proof. by apply list_elem_of_singleton. Qed.

Lemma GET_not_in_PUT : GET ∉ [PUT].
Proof. intros H. by apply list_elem_of_singleton in H. Qed.

Lemma PUT_not_in_GET : PUT ∉ [GET].
Proof. intros H. by apply list_elem_of_singleton in H. Qed.


(** The path of an upload: a segment that is not empty and has no slash
    after [/rio/upload/]. *)
Lemma upload_pattern_Some path seg :
  match_pattern (SegmentParam "/rio/upload/") path = Some seg <->
  path = "/rio/upload/" +:+ seg /\ seg <> "" /\ has_slash seg = false.
Proof.
  unfold match_pattern.
  destruct (strip_prefix "/rio/upload/" path) as [r|] eqn:E.
  - apply strip_prefix_Some in E. subst path. destruct r as [|c r].
    + split; [done|]. intros (H & Hne & _).
      apply strip_prefix_Some in H. rewrite strip_prefix_app in H.
      by simplify_eq.
    + destruct (has_slash (String c r)) eqn:Es.
      * split; [done|]. intros (H & _ & Hs).
        assert (seg = String c r) as ->; [|congruence].
        symmetry in H. apply strip_prefix_Some in H.
        rewrite strip_prefix_app in H. by simplify_eq.
      * split.
        -- intros ?; by simplify_eq.
        -- intros (H & _ & _). symmetry in H.
           apply strip_prefix_Some in H. rewrite strip_prefix_app in H.
           by simplify_eq.
  - split; [done|]. intros (H & _ & _). subst path.
    by rewrite strip_prefix_app in E.
Qed.

(** What the router does with a PUT request. *)
Lemma dispatch_PUT (rest : string) :
  let path := String "/"%char rest in
  dispatch PUT path =
  match match_pattern (SegmentParam "/rio/upload/") path with
  | Some seg => Handle to_serve_file_upload seg
  | None => MethodNotAllowed
  end.
Proof.
  cbn zeta. set (path := String "/"%char rest).
  unfold dispatch, routes.
    change [ApiRoute (Literal "/robots.txt") [GET] to_serve_robots;
            ApiRoute (Literal "/rio/sitemap") [GET] to_serve_sitemap;
            ApiRoute (Literal "/rio/favicon.png") [GET] to_serve_favicon;
            ApiRoute (PathParam "/rio/frontend/assets/") [GET] to_serve_frontend_asset;
            ApiRoute (PathParam "/rio/asset/special/") [GET] to_serve_special_asset;
            ApiRoute (PathParam "/rio/asset/hosted/") [GET] to_serve_hosted_asset;
            ApiRoute (PathParam "/rio/asset/user/") [GET] to_serve_user_asset;
            ApiRoute (PathParam "/rio/asset/temp/") [GET] to_serve_temp_asset;
            ApiRoute (PathParam "/rio/icon/") [GET] to_serve_icon;
            ApiRoute (SegmentParam "/rio/upload/") [PUT] to_serve_file_upload;
            WebSocketRoute (Literal "/rio/ws") to_serve_websocket;
            ApiRoute (PathParam "/") [GET] to_serve_index]
      with ([ApiRoute (Literal "/robots.txt") [GET] to_serve_robots;
             ApiRoute (Literal "/rio/sitemap") [GET] to_serve_sitemap;
             ApiRoute (Literal "/rio/favicon.png") [GET] to_serve_favicon;
             ApiRoute (PathParam "/rio/frontend/assets/") [GET] to_serve_frontend_asset;
             ApiRoute (PathParam "/rio/asset/special/") [GET] to_serve_special_asset;
             ApiRoute (PathParam "/rio/asset/hosted/") [GET] to_serve_hosted_asset;
             ApiRoute (PathParam "/rio/asset/user/") [GET] to_serve_user_asset;
             ApiRoute (PathParam "/rio/asset/temp/") [GET] to_serve_temp_asset;
             ApiRoute (PathParam "/rio/icon/") [GET] to_serve_icon]
            ++ [ApiRoute (SegmentParam "/rio/upload/") [PUT] to_serve_file_upload;
                WebSocketRoute (Literal "/rio/ws") to_serve_websocket;
                ApiRoute (PathParam "/") [GET] to_serve_index]).
    rewrite dispatch_from_refusing
      by (repeat constructor; apply PUT_not_in_GET).
    cbn [dispatch_from].
    destruct (match_pattern (SegmentParam "/rio/upload/") path) as [seg|].
    - by rewrite (bool_decide_eq_true_2 _ PUT_in_PUT).
    - change (match_pattern (PathParam "/") path) with (Some rest).
      by rewrite (bool_decide_eq_false_2 _ PUT_not_in_GET).
Qed.



(** X4. The URL [url_for_user_asset] returns starts with
    [/rio/assets/user/], the user-asset route with [/rio/asset/user/]: a GET
    of the returned URL is handled by the index handler, not by the
    user-asset handler. *)
Theorem user_asset_url_reaches_index (relative_asset_path : string) :
  dispatch GET (url_for_user_asset relative_asset_path) =
    Handle to_serve_index ("rio/assets/user/" +:+ relative_asset_path)
  /\ (forall param,
        dispatch GET (url_for_user_asset relative_asset_path) <>
          Handle to_serve_user_asset param).
Proof. split; [reflexivity|]. intros param. discriminate. Qed.

(** X5. Hosting an asset makes [_serve_temp_asset] answer its id with its
    content, replacing an asset hosted earlier under the same id and
    leaving every other id as it was; once the entry of an id is gone, the
    id is answered with 404. *)
Theorem hosted_assets_lookup (a : Asset) (_assets : gmap string Asset) :
  let content (x : Asset) :=
    match x with
    | BytesAsset _ data media_type => Content data media_type
    | PathAsset _ path media_type => RangeRequests path media_type
    end in
  (forall b, secret_id b = secret_id a ->
     _serve_temp_asset (secret_id a)
       (weakly_host_asset b (weakly_host_asset a _assets).2).2 = content b)
  /\ (forall id, id <> secret_id a ->
        _serve_temp_asset id (weakly_host_asset a _assets).2 =
        _serve_temp_asset id _assets)
  /\ _serve_temp_asset (secret_id a)
       (release (secret_id a) (weakly_host_asset a _assets).2) = Status 404
  /\ (forall id, _assets !! id = None -> _serve_temp_asset id _assets = Status 404).
Proof.
  cbn zeta. unfold _serve_temp_asset, weakly_host_asset, release. cbn [snd].
  split; [|split; [|split]].
  - intros b Hb. rewrite Hb, lookup_insert_eq. by destruct b.
  - intros id Hne. by rewrite lookup_insert_ne.
  - by rewrite lookup_delete_eq.
  - intros id H. by rewrite H.
Qed.

End RoutingFacts.

(** ** [file_chooser]: the waiter's side of an upload *)

Module FileChooser.
Import Upload.

(** Lines 783-787: [ext if ext.startswith(".") else f".{ext}"]. *)
Definition normalize_extension (ext : string) : string :=
  if String.prefix "." ext then ext else "." +:+ ext.

Definition normalize_extensions (file_extensions : option (list string))
  : option (list string) :=
  match file_extensions with
  | None => None
  | Some exts => Some (map normalize_extension exts)
  end.

(** What [file_chooser] hands back: one file, or a tuple of files. *)
Inductive chosen :=
| OneFile (f : FileInfo)
| Files (fs : list FileInfo).

Inductive chooser_exn :=
| NoFileSelectedError
| CancelledError
| ChooserIndexError.

(** Lines 799-814, once [await future] has returned [files]. *)
Definition file_chooser_result (multiple : bool) (files : list FileInfo)
  : chooser_exn + chosen :=
  if Nat.eqb (length files) 0 then inl NoFileSelectedError
  else if negb multiple && negb (Nat.eqb (length files) 1)
       then inl NoFileSelectedError
  else if multiple then inr (Files files)
  else match files !! 0 with
       | Some f => inr (OneFile f)
       | None => inl ChooserIndexError
       end.

(** Lines 797-814: what the waiter gets from its future; [None] while the
    future is pending and the waiter stays suspended. *)
Definition file_chooser_wait (multiple : bool) (future : fid) (st : State)
  : option (chooser_exn + chosen) :=
  match futures st !! future with
  | Some (Finished files) => Some (file_chooser_result multiple files)
  | Some Cancelled => Some (inl CancelledError)
  | _ => None
  end.

End FileChooser.

Module FileChooserFacts.
Import Upload UploadFacts FileChooser.

(** X7. Every extension [file_chooser] hands to the frontend starts with a
    dot: an extension that has one is kept, any other gets one in front;
    doing it twice changes nothing more, and the list keeps its length and
    order. *)
Theorem extensions_get_a_dot (ext : string) (exts : list string) :
  String.prefix "." (normalize_extension ext) = true
  /\ (String.prefix "." ext = true -> normalize_extension ext = ext)
  /\ (String.prefix "." ext = false -> normalize_extension ext = "." +:+ ext)
  /\ normalize_extension (normalize_extension ext) = normalize_extension ext
  /\ normalize_extensions None = None
  /\ (exists l, normalize_extensions (Some exts) = Some l /\
        length l = length exts /\
        Forall (λ e, String.prefix "." e = true) l /\
        forall i e, exts !! i = Some e -> l !! i = Some (normalize_extension e)).
Proof.
  assert (forall e, String.prefix "." (normalize_extension e) = true) as Hdot.
  { intros e. unfold normalize_extension.
    destruct (String.prefix "." e) eqn:E; [done|]. by destruct e. }
  split; [apply Hdot|]. split; [|split; [|split; [|split]]].
  - intros H. unfold normalize_extension. by rewrite H.
  - intros H. unfold normalize_extension. by rewrite H.
  - unfold normalize_extension at 1. by rewrite Hdot.
  - done.
  - exists (normalize_extension <$> exts). split; [done|].
    split; [by rewrite length_fmap|]. split.
    + apply Forall_fmap, Forall_forall. intros e _. apply Hdot.
    + intros i e H. by rewrite list_lookup_fmap, H.
Qed.

Section WithInt.

Variable int : string -> option Z.



(** X9. A call of the upload endpoint touches nothing but its own token
    and the future stored under it: every other pending upload and every
    other future is as before, and no future is created. *)
Theorem upload_call_frame
    (st : State) (tok : string) (names types sizes : list string)
    (streams : list UploadFile) :
  let r := _serve_file_upload int tok names types sizes streams st in
  (forall tok', tok' <> tok ->
     _pending_file_uploads r.2 !! tok' = _pending_file_uploads st !! tok')
  /\ (forall future,
        _pending_file_uploads st !! tok <> Some future ->
        futures r.2 !! future = futures st !! future)
  /\ next_fid r.2 = next_fid st
  /\ (r.1 <> Response 200 -> futures r.2 = futures st).
Proof.
  cbn zeta.
  pose proof (serve_file_upload_state int tok names types sizes streams st) as H.
  cbn zeta in H.
  destruct (_pending_file_uploads st !! tok) as [future|] eqn:Et.
  - destruct H as [[Hne ->]|(infos & Hp & ->)]; cbn.
    + split; [|split; [|split]]; try done.
      intros tok' Hne'. by rewrite lookup_delete_ne.
    + split; [|split; [|split]]; try done.
      * intros tok' Hne'. by rewrite lookup_delete_ne.
      * intros fut Hfut. rewrite lookup_insert_ne; [done|].
        intros ->. done.
  - rewrite H. cbn. done.
Qed.

(** Resolved futures are in the log. *)
Definition finished_logged (st : State) : Prop :=
  forall future res,
    futures st !! future = Some (Finished res) -> future ∈ resolutions st.

Lemma finished_logged_exec a st :
  finished_logged st -> finished_logged (exec int a st).
Proof.
  intros Hfl. destruct a as [upload_id|tok names types sizes streams|tok|future];
    cbn.
  - intros fut res. cbn. destruct (decide (fut = next_fid st)) as [->|Hne].
    + by rewrite lookup_insert_eq.
    + rewrite lookup_insert_ne by done. apply Hfl.
  - pose proof (serve_file_upload_state int tok names types sizes streams st) as H.
    cbn zeta in H. destruct (_pending_file_uploads st !! tok) as [future|].
    + destruct H as [[_ ->]|(infos & Hp & ->)]; cbn; [apply Hfl|].
      intros fut res. cbn. rewrite elem_of_app, list_elem_of_singleton.
      destruct (decide (fut = future)) as [->|Hne]; [by right|].
      rewrite lookup_insert_ne by done. intros H. left. by eapply Hfl.
    + by rewrite H.
  - apply Hfl.
  - unfold cancel_waiter. destruct (futures st !! future) as [[| |]|] eqn:E;
      try apply Hfl.
    intros fut res. cbn. destruct (decide (fut = future)) as [->|Hne].
    + by rewrite lookup_insert_eq.
    + rewrite lookup_insert_ne by done. apply Hfl.
Qed.

Lemma reachable_finished_logged st : reachable int st -> finished_logged st.
Proof.
  induction 1; [|by apply finished_logged_exec].
  intros future res H. cbn in H. by rewrite lookup_empty in H.
Qed.

(** No token leads to the future any more. *)
Definition orphan (future : fid) (st : State) : Prop :=
  future < next_fid st /\
  forall tok, _pending_file_uploads st !! tok <> Some future.

Lemma orphan_exec a future st :
  orphan future st ->
  orphan future (exec int a st) /\
  forall res, futures (exec int a st) !! future = Some (Finished res) ->
              futures st !! future = Some (Finished res).
Proof.
  intros [Hlt Hno].
  destruct a as [upload_id|tok names types sizes streams|tok|fut]; cbn.
  - split; [split|]; cbn.
    + lia.
    + intros tok. destruct (decide (tok = upload_id)) as [->|Hne].
      * rewrite lookup_insert_eq. intros ?; simplify_eq. lia.
      * rewrite lookup_insert_ne by done. apply Hno.
    + intros res. rewrite lookup_insert_ne; [done|lia].
  - pose proof (serve_file_upload_state int tok names types sizes streams st) as H.
    cbn zeta in H. destruct (_pending_file_uploads st !! tok) as [f|] eqn:Et.
    + destruct H as [[_ ->]|(infos & Hp & ->)]; cbn.
      * split; [split; [done|]|done]. cbn. intros t Ht.
        apply lookup_delete_Some in Ht as [_ Ht]. by apply (Hno t).
      * split; [split; [done|]|]; cbn.
        -- intros t Ht. apply lookup_delete_Some in Ht as [_ Ht].
           by apply (Hno t).
        -- intros res. rewrite lookup_insert_ne; [done|].
           intros ->. by apply (Hno tok).
    + rewrite H. cbn. done.
  - split; [split; [done|]|done]. cbn. intros t Ht.
    apply lookup_delete_Some in Ht as [_ Ht]. by apply (Hno t).
  - unfold cancel_waiter. destruct (futures st !! fut) as [[| |]|] eqn:E;
      try done.
    split; [done|]. cbn. intros res.
    destruct (decide (future = fut)) as [->|Hne].
    + by rewrite lookup_insert_eq.
    + by rewrite lookup_insert_ne.
Qed.

Lemma orphan_run l future st :
  orphan future st ->
  (forall res, futures st !! future <> Some (Finished res)) ->
  forall res, futures (run int l st) !! future <> Some (Finished res).
Proof.
  revert st. induction l as [|a l IH]; intros st Ho Hnf; [done|]. cbn.
  destruct (orphan_exec a future st Ho) as [Ho' Hback].
  apply (IH (exec int a st)); [done|].
  intros res H. apply (Hnf res). by apply Hback.
Qed.

(** X10. A token is spent by the call that pops it, also when the call
    then fails: after a call that did not return 200, and after the entry
    was dropped for its age, no later call or upload request resolves the
    future that was stored under the token. The waiter of that future never
    gets files. *)
Theorem failed_upload_orphans_future
    (st : State) (tok : string) (future : fid) (names types sizes : list string)
    (streams : list UploadFile) :
  reachable int st ->
  _pending_file_uploads st !! tok = Some future ->
  let r := _serve_file_upload int tok names types sizes streams st in
  (r.1 <> Response 200 ->
     forall l res, futures (run int l r.2) !! future <> Some (Finished res))
  /\ (forall l res,
        futures (run int l (evict tok st)) !! future <> Some (Finished res))
  /\ (forall l multiple,
        r.1 <> Response 200 ->
        forall x, file_chooser_wait multiple future (run int l r.2) <> Some (inr x)).
Proof.
  intros Hr Ht. cbn zeta.
  pose proof (reachable_inv int st Hr) as [Hf Hi Hn Hb].
  pose proof (reachable_finished_logged st Hr) as Hfl.
  assert (forall res, futures st !! future <> Some (Finished res)) as Hnf.
  { intros res H. destruct (Hf _ _ Ht) as [_ Hnin]. apply Hnin.
    by eapply Hfl. }
  assert (orphan future (popped tok st)) as Ho.
  { split; [by destruct (Hf _ _ Ht)|]. cbn. intros t H.
    apply lookup_delete_Some in H as [Hne H]. apply Hne. by eapply Hi. }
  pose proof (serve_file_upload_state int tok names types sizes streams st) as H.
  cbn zeta in H. rewrite Ht in H.
  assert ((_serve_file_upload int tok names types sizes streams st).1
            <> Response 200 ->
          forall l res,
            futures (run int l
              (_serve_file_upload int tok names types sizes streams st).2)
              !! future <> Some (Finished res)) as Hmain.
  { intros Hne l res. destruct H as [[_ ->]|(infos & _ & Heq)].
    - by apply orphan_run.
    - rewrite Heq in Hne. done. }
  split; [exact Hmain|]. split.
  - intros l res. by apply orphan_run.
  - intros l multiple Hne x Hw. unfold file_chooser_wait in Hw.
    destruct (futures (run int l
                (_serve_file_upload int tok names types sizes streams st).2)
              !! future) as [fs|] eqn:E; [|done].
    destruct fs as [|res|]; [done| |done].
    exact (Hmain Hne l res E).
Qed.

End WithInt.

End FileChooserFacts.

Module UploadRouteFacts.
Import Assets RoutingFacts.

Section WithInt.

Variable int : string -> option Z.

(** X6. The upload URL that [file_chooser] sends to the frontend leads back
    to the pending upload: for an upload id that is not empty and has no
    slash, a PUT of [/rio/upload/<id>] reaches the upload endpoint with the
    id as token, and the endpoint finds the entry [file_chooser] stored, so
    the call is not refused with 400. A GET of the same URL is handled by
    the index handler. *)
Theorem upload_url_round_trip (upload_id : string) (st : Upload.State) :
  upload_id <> "" -> has_slash upload_id = false ->
  dispatch PUT (upload_url upload_id) = Handle to_serve_file_upload upload_id
  /\ Upload._pending_file_uploads (Upload.file_chooser_begin upload_id st)
       !! upload_id = Some (Upload.next_fid st)
  /\ (forall names types sizes streams,
        (Upload._serve_file_upload int upload_id names types sizes streams
           (Upload.file_chooser_begin upload_id st)).1
        <> Upload.Raise (Upload.HTTPException 400 "Invalid upload token."))
  /\ dispatch GET (upload_url upload_id) =
       Handle to_serve_index ("rio/upload/" +:+ upload_id).
Proof.
  intros Hne Hs.
  assert (match_pattern (SegmentParam "/rio/upload/") (upload_url upload_id)
          = Some upload_id) as Hm.
  { apply upload_pattern_Some. done. }
  split; [|split; [|split]].
  - pose proof (dispatch_PUT ("rio/upload/" +:+ upload_id)) as Hd.
    cbn zeta in Hd.
    change (String "/"%char ("rio/upload/" +:+ upload_id))
      with (upload_url upload_id) in Hd.
    by rewrite Hd, Hm.
  - apply lookup_insert_eq.
  - intros names types sizes streams. unfold Upload._serve_file_upload.
    assert (Upload._pending_file_uploads (Upload.file_chooser_begin upload_id st)
              !! upload_id = Some (Upload.next_fid st)) as ->
      by apply lookup_insert_eq.
    destruct (negb _ || negb _ || negb _); [done|].
    destruct (Upload.parse_file_sizes int sizes) as [e|parsed] eqn:Ep.
    + cbn. rewrite (UploadFacts.parse_file_sizes_error int _ _ Ep). done.
    + destruct (mapM _ _); [|done].
      by destruct (Upload.set_result _ _ _).
  - unfold dispatch, routes, upload_url.
    cbn [dispatch_from].
    change (match_pattern (Literal "/robots.txt") ("/rio/upload/" +:+ upload_id))
      with (@None string).
    change (match_pattern (Literal "/rio/sitemap") ("/rio/upload/" +:+ upload_id))
      with (@None string).
    change (match_pattern (Literal "/rio/favicon.png")
              ("/rio/upload/" +:+ upload_id)) with (@None string).
    change (match_pattern (PathParam "/rio/frontend/assets/")
              ("/rio/upload/" +:+ upload_id)) with (@None string).
    change (match_pattern (PathParam "/rio/asset/special/")
              ("/rio/upload/" +:+ upload_id)) with (@None string).
    change (match_pattern (PathParam "/rio/asset/hosted/")
              ("/rio/upload/" +:+ upload_id)) with (@None string).
    change (match_pattern (PathParam "/rio/asset/user/")
              ("/rio/upload/" +:+ upload_id)) with (@None string).
    change (match_pattern (PathParam "/rio/asset/temp/")
              ("/rio/upload/" +:+ upload_id)) with (@None string).
    change (match_pattern (PathParam "/rio/icon/")
              ("/rio/upload/" +:+ upload_id)) with (@None string).
    fold (upload_url upload_id). rewrite Hm.
    rewrite (bool_decide_eq_false_2 _ GET_not_in_PUT).
    change (match_pattern (PathParam "/") (upload_url upload_id))
      with (Some ("rio/upload/" +:+ upload_id)).
    by rewrite (bool_decide_eq_true_2 _ GET_in_GET).
Qed.

End WithInt.

End UploadRouteFacts.

(** ** More on the session protocol *)

Module SessionsMore.
Import Sessions SessionsFacts.

(** Who holds a token: an entry of the active map refers to a session whose
    [receive_message] closure captured that token; a token whose session is
    being created belongs to no session yet and to one handler only. *)
Record owned (w : World) : Prop := mk_owned {
  owned_active : forall tok sess,
    _active_session_tokens w !! tok = Some sess ->
    exists s, sessions w !! sess = Some s /\ receive_message_token s = Some tok;
  owned_creating : forall ws tok st req sess s,
    connections w !! ws = Some (mkConnection tok st (AwaitCreate req)) ->
    sessions w !! sess = Some s -> receive_message_token s <> Some tok;
  owned_once : forall ws1 ws2 tok st1 st2 req1 req2,
    connections w !! ws1 = Some (mkConnection tok st1 (AwaitCreate req1)) ->
    connections w !! ws2 = Some (mkConnection tok st2 (AwaitCreate req2)) ->
    ws1 = ws2
}.

Lemma owned_init : owned init.
Proof.
  split; cbn.
  - intros tok sess H. by rewrite lookup_empty in H.
  - intros ws tok st req sess s H. by rewrite lookup_empty in H.
  - intros ws1 ws2 tok st1 st2 req1 req2 H. by rewrite lookup_empty in H.
Qed.

Lemma owned_set_spawned l w : owned w -> owned (set_spawned l w).
Proof. intros [? ? ?]. by split. Qed.

Lemma owned_set_gate b w : owned w -> owned (set_gate b w).
Proof. intros [? ? ?]. by split. Qed.

Lemma owned_set_conn_other ws c w :
  owned w -> (forall req, conn_pc c <> AwaitCreate req) ->
  owned (set_conn ws c w).
Proof.
  intros [Ha Hc Ho] Hin. split; cbn; try done.
  - intros ws' tok st req sess s H. destruct (decide (ws' = ws)) as [->|Hne].
    + rewrite lookup_insert_eq in H. simplify_eq. by destruct (Hin req).
    + rewrite lookup_insert_ne in H by done. eauto.
  - intros ws1 ws2 tok st1 st2 req1 req2 H1 H2.
    destruct (decide (ws1 = ws)) as [->|Hne1].
    { rewrite lookup_insert_eq in H1. simplify_eq. by destruct (Hin req1). }
    destruct (decide (ws2 = ws)) as [->|Hne2].
    { rewrite lookup_insert_eq in H2. simplify_eq. by destruct (Hin req2). }
    rewrite lookup_insert_ne in H1, H2 by done. eauto.
Qed.

Lemma owned_set_conn_serving ws tok st sess w :
  owned w -> owned (set_conn ws (mkConnection tok st (Serving sess)) w).
Proof. intros H. by apply owned_set_conn_other. Qed.

Lemma owned_update_session sess f w :
  owned w ->
  (forall s, receive_message_token (f s) = receive_message_token s) ->
  owned (update_session sess f w).
Proof.
  intros [Ha Hc Ho] Hf. split; cbn; try done.
  - intros tok sess' H. destruct (Ha _ _ H) as (s & Hs & Ht).
    rewrite lookup_alter. case_decide; subst.
    + exists (f s). rewrite Hs. cbn. by rewrite Hf.
    + by exists s.
  - intros ws tok st req sess' s H Hs. rewrite lookup_alter in Hs.
    case_decide; subst.
    + destruct (sessions w !! sess') as [s0|] eqn:E; cbn in Hs; [|done].
      simplify_eq. rewrite Hf. by eapply Hc.
    + by eapply Hc.
Qed.

Lemma owned_set_latent m w : owned w -> owned (set_latent m w).
Proof. intros [? ? ?]. by split. Qed.

Lemma owned_set_issued m w : owned w -> owned (set_issued m w).
Proof. intros [? ? ?]. by split. Qed.

Lemma owned_insert_active tok sess s w :
  owned w -> sessions w !! sess = Some s ->
  receive_message_token s = Some tok ->
  owned (set_active (<[tok := sess]> (_active_session_tokens w)) w).
Proof.
  intros [Ha Hc Ho] Hs Ht. split; cbn; try done.
  intros t sess'. destruct (decide (t = tok)) as [->|Hne].
  - rewrite lookup_insert_eq. intros ?; simplify_eq. by exists s.
  - rewrite lookup_insert_ne by done. apply Ha.
Qed.

Lemma owned_alloc_anonymous s w :
  wf w -> owned w -> receive_message_token s = None ->
  owned (set_next_sid (S (next_sid w))
           (set_sessions (<[next_sid w := s]> (sessions w)) w)).
Proof.
  intros Hwf [Ha Hc Ho] Hs. split; cbn; try done.
  - intros tok sess H. destruct (Ha _ _ H) as (s0 & Hs0 & Ht).
    exists s0. split; [|done]. rewrite lookup_insert_ne; [done|].
    apply (wf_active_store w Hwf) in H. lia.
  - intros ws tok st req sess s0 H Hs0.
    destruct (decide (sess = next_sid w)) as [->|Hne].
    + rewrite lookup_insert_eq in Hs0. simplify_eq. by rewrite Hs.
    + rewrite lookup_insert_ne in Hs0 by done. by eapply Hc.
Qed.

Lemma owned_exec a w w' : wf w -> owned w -> exec a w = Some w' -> owned w'.
Proof.
  intros Hwf Hown H. destruct a; cbn in H.
  - case_bool_decide; [done|]. simplify_eq.
    by apply owned_set_issued, owned_set_latent.
  - simplify_eq. destruct created as [s|]; cbn; [|done].
    apply owned_set_spawned. by apply owned_alloc_anonymous.
  - unfold ws_connect in H. destruct (connections w !! ws); [done|].
    simplify_eq. by apply owned_set_conn_other.
  - unfold ws_pass_gate in H.
    destruct (connections w !! ws) as [[tok st pc]|]; [|done].
    destruct st, pc; try done. destruct (_can_create_new_sessions w); [|done].
    simplify_eq. by apply owned_set_conn_other.
  - unfold ws_lookup in H.
    destruct (connections w !! ws) as [[tok st pc]|] eqn:Ec; [|done].
    destruct pc; try done.
    destruct (_latent_session_tokens w !! tok) as [req|] eqn:El.
    + destruct (request_client req); simplify_eq.
      * destruct Hown as [Ha Hc Ho]. split; cbn; try done.
        -- intros ws' t st' r sess s H Hs.
           destruct (decide (ws' = ws)) as [->|Hne].
           ++ rewrite lookup_insert_eq in H. simplify_eq. intros Ht.
              destruct (wf_closure w Hwf _ _ _ Hs Ht) as [_ Hn]. congruence.
           ++ rewrite lookup_insert_ne in H by done. by eapply Hc.
        -- intros ws1 ws2 t st1 st2 r1 r2 H1 H2.
           destruct (decide (ws1 = ws)) as [->|Hne1];
             destruct (decide (ws2 = ws)) as [->|Hne2]; try done.
           ++ rewrite lookup_insert_eq in H1. rewrite lookup_insert_ne in H2 by done.
              simplify_eq.
              destruct (wf_creating w Hwf _ _ _ _ H2) as [_ Hn]. congruence.
           ++ rewrite lookup_insert_eq in H2. rewrite lookup_insert_ne in H1 by done.
              simplify_eq.
              destruct (wf_creating w Hwf _ _ _ _ H1) as [_ Hn]. congruence.
           ++ rewrite lookup_insert_ne in H1, H2 by done. eauto.
      * apply owned_set_conn_other; [|done]. by apply owned_set_latent.
    + destruct (_active_session_tokens w !! tok) as [sess|] eqn:Ea; simplify_eq.
      * apply owned_set_conn_serving, owned_set_spawned.
        by apply owned_update_session.
      * by apply owned_set_conn_other.
  - unfold ws_created in H.
    destruct (connections w !! ws) as [[tok st pc]|] eqn:Ec; [|done].
    destruct pc; try done.
    destruct o as [s|e]; simplify_eq; [|by apply owned_set_conn_other].
    destruct Hown as [Ha Hc Ho]. split; cbn.
    + intros t sess. destruct (decide (t = tok)) as [->|Hne].
      * rewrite lookup_insert_eq. intros ?; simplify_eq.
        eexists. by rewrite lookup_insert_eq.
      * rewrite lookup_insert_ne by done. intros H.
        destruct (Ha _ _ H) as (s0 & Hs0 & Ht). exists s0. split; [|done].
        rewrite lookup_insert_ne; [done|].
        apply (wf_active_store w Hwf) in H. lia.
    + intros ws' t st' r sess s0 H Hs0.
      destruct (decide (ws' = ws)) as [->|Hne].
      { rewrite lookup_insert_eq in H. by simplify_eq. }
      rewrite lookup_insert_ne in H by done.
      destruct (decide (sess = next_sid w)) as [->|Hne'].
      * rewrite lookup_insert_eq in Hs0. simplify_eq. cbn. intros ?; simplify_eq.
        apply Hne. by eapply Ho.
      * rewrite lookup_insert_ne in Hs0 by done. by eapply Hc.
    + intros ws1 ws2 t st1 st2 r1 r2 H1 H2.
      destruct (decide (ws1 = ws)) as [->|Hne1].
      { rewrite lookup_insert_eq in H1. by simplify_eq. }
      destruct (decide (ws2 = ws)) as [->|Hne2].
      { rewrite lookup_insert_eq in H2. by simplify_eq. }
      rewrite lookup_insert_ne in H1, H2 by done. eauto.
  - unfold ws_serve_ends in H.
    destruct (connections w !! ws) as [[tok st pc]|] eqn:Ec; [|done].
    destruct pc; try done. simplify_eq.
    apply owned_set_conn_other; [|by destruct o].
    apply owned_update_session; [|done]. apply owned_update_session; [|done].
    destruct o as [|code| |e]; try done.
    + case_bool_decide; [by apply owned_set_spawned|done].
    + by apply owned_set_spawned.
  - unfold receive_message in H.
    destruct (sessions w !! sess) as [s|] eqn:Es; [|done].
    destruct (receive_message_token s) as [tok|] eqn:Et; [|done]. simplify_eq.
    by eapply owned_insert_active.
  - simplify_eq. by apply owned_set_gate.
  - simplify_eq. by apply owned_set_gate.
  - simplify_eq. destruct (reaper_pass_spawned now w) as [l ->].
    by apply owned_set_spawned.
  - case_bool_decide; [|done]. simplify_eq.
    destruct Hown as [Ha Hc Ho]. split; cbn; try done.
    intros t s Hx. apply map_lookup_filter_Some in Hx as [Hx _]. eauto.
  - simplify_eq. by apply owned_update_session.
Qed.

Lemma reachable_owned w : reachable w -> owned w.
Proof.
  induction 1 as [|a w w' Hr IH Hstep]; [apply owned_init|].
  eapply owned_exec; [|done|done]. by apply reachable_wf.
Qed.

(** Nobody holds the token any more: it was issued, it is in neither map,
    no handler is creating a session for it and no session's closure
    captured it. *)
Record dead (tok : string) (w : World) : Prop := mk_dead {
  dead_issued : tok ∈ issued w;
  dead_latent : _latent_session_tokens w !! tok = None;
  dead_active : _active_session_tokens w !! tok = None;
  dead_creating : forall ws st req,
    connections w !! ws <> Some (mkConnection tok st (AwaitCreate req));
  dead_closure : forall sess s,
    sessions w !! sess = Some s -> receive_message_token s <> Some tok
}.

Lemma dead_set_spawned tok l w : dead tok w -> dead tok (set_spawned l w).
Proof. intros [? ? ? ? ?]. by split. Qed.

Lemma dead_set_conn_other tok ws c w :
  dead tok w -> (forall req, conn_pc c = AwaitCreate req -> conn_token c <> tok) ->
  dead tok (set_conn ws c w).
Proof.
  intros [Hi Hl Ha Hc Hs] Hne. split; cbn; try done.
  intros ws' st req. destruct (decide (ws' = ws)) as [->|Hw].
  - rewrite lookup_insert_eq. intros ?; simplify_eq. by apply (Hne req).
  - rewrite lookup_insert_ne by done. apply Hc.
Qed.

Lemma dead_update_session tok sess f w :
  dead tok w ->
  (forall s, receive_message_token (f s) = receive_message_token s) ->
  dead tok (update_session sess f w).
Proof.
  intros [Hi Hl Ha Hc Hs] Hf. split; cbn; try done.
  intros sess' s H. rewrite lookup_alter in H. case_decide; subst.
  - destruct (sessions w !! sess') as [s0|] eqn:E; cbn in H; [|done].
    simplify_eq. rewrite Hf. by eapply Hs.
  - by eapply Hs.
Qed.

Lemma dead_exec tok a w w' : dead tok w -> exec a w = Some w' -> dead tok w'.
Proof.
  intros Hd H. destruct a; cbn in H.
  - case_bool_decide as Hfresh; [done|]. simplify_eq.
    destruct Hd as [Hi Hl Ha Hc Hs]. split; cbn; try done.
    + by apply elem_of_union_r.
    + rewrite lookup_insert_ne; [done|]. by intros ->.
  - simplify_eq. destruct created as [s|]; cbn; [|done].
    apply dead_set_spawned. destruct Hd as [Hi Hl Ha Hc Hs]. split; cbn; try done.
    intros sess s0 H. destruct (decide (sess = next_sid w)) as [->|Hne].
    + rewrite lookup_insert_eq in H. by simplify_eq.
    + rewrite lookup_insert_ne in H by done. by eapply Hs.
  - unfold ws_connect in H. destruct (connections w !! ws); [done|].
    simplify_eq. by apply dead_set_conn_other.
  - unfold ws_pass_gate in H.
    destruct (connections w !! ws) as [[t st pc]|]; [|done].
    destruct st, pc; try done. destruct (_can_create_new_sessions w); [|done].
    simplify_eq. by apply dead_set_conn_other.
  - unfold ws_lookup in H.
    destruct (connections w !! ws) as [[t st pc]|] eqn:Ec; [|done].
    destruct pc; try done.
    destruct (_latent_session_tokens w !! t) as [req|] eqn:El.
    + assert (t <> tok) as Hne.
      { intros ->. rewrite (dead_latent tok w Hd) in El. done. }
      assert (dead tok (set_latent (delete t (_latent_session_tokens w)) w))
        as Hd1.
      { destruct Hd as [Hi Hl Ha Hc Hs]. split; cbn; try done.
        by rewrite lookup_delete_ne. }
      destruct (request_client req); simplify_eq;
        apply dead_set_conn_other; try done; cbn; by intros.
    + destruct (_active_session_tokens w !! t) as [sess|] eqn:Ea; simplify_eq.
      * apply dead_set_conn_other; [|done]. apply dead_set_spawned.
        by apply dead_update_session.
      * by apply dead_set_conn_other.
  - unfold ws_created in H.
    destruct (connections w !! ws) as [[t st pc]|] eqn:Ec; [|done].
    destruct pc; try done.
    assert (t <> tok) as Hne.
    { intros ->. by apply (dead_creating tok w Hd ws st request). }
    destruct o as [s|e]; simplify_eq; [|by apply dead_set_conn_other].
    apply dead_set_conn_other; [|done]. apply dead_set_spawned.
    destruct Hd as [Hi Hl Ha Hc Hs]. split; cbn; try done.
    + by rewrite lookup_insert_ne.
    + intros sess s0 H. destruct (decide (sess = next_sid w)) as [->|Hne'].
      * rewrite lookup_insert_eq in H. simplify_eq. cbn. congruence.
      * rewrite lookup_insert_ne in H by done. by eapply Hs.
  - unfold ws_serve_ends in H.
    destruct (connections w !! ws) as [[t st pc]|] eqn:Ec; [|done].
    destruct pc; try done. simplify_eq.
    apply dead_set_conn_other; [|by destruct o].
    apply dead_update_session; [|done]. apply dead_update_session; [|done].
    destruct o as [|code| |e]; try done.
    + case_bool_decide; [by apply dead_set_spawned|done].
    + by apply dead_set_spawned.
  - unfold receive_message in H.
    destruct (sessions w !! sess) as [s|] eqn:Es; [|done].
    destruct (receive_message_token s) as [t|] eqn:Et; [|done]. simplify_eq.
    destruct Hd as [Hi Hl Ha Hc Hs]. split; cbn; try done.
    rewrite lookup_insert_ne; [done|]. intros ->. by apply (Hs _ _ Es).
  - simplify_eq. destruct Hd. by split.
  - simplify_eq. destruct Hd. by split.
  - simplify_eq. destruct (reaper_pass_spawned now w) as [l ->].
    by apply dead_set_spawned.
  - case_bool_decide; [|done]. simplify_eq.
    destruct Hd as [Hi Hl Ha Hc Hs]. split; cbn; try done.
    apply map_lookup_filter_None. by left.
  - simplify_eq. by apply dead_update_session.
Qed.

Lemma dead_run tok l w w' : dead tok w -> run l w = Some w' -> dead tok w'.
Proof.
  revert w. induction l as [|a l IH]; intros w Hd H; cbn in H.
  - by simplify_eq.
  - destruct (exec a w) as [w1|] eqn:E; [|done].
    apply (IH w1); [|done]. by eapply dead_exec.
Qed.

(** A handler that looks up a token found in neither map. *)
Lemma lookup_rejects ws tok st w :
  connections w !! ws = Some (mkConnection tok st AwaitAccept) ->
  _latent_session_tokens w !! tok = None ->
  _active_session_tokens w !! tok = None ->
  exec (Lookup ws) w =
    Some (set_conn ws
            (mkConnection tok (WsClosed 3000 "Invalid session token.") Returned)
            w).
Proof. intros Hc Hl Ha. cbn. unfold ws_lookup. by rewrite Hc, Hl, Ha. Qed.

(** X12. A latent token admits one websocket only. While the handler that
    popped it is still creating the session, the token is in neither map,
    so a second websocket presenting it is closed with code 3000. *)
Theorem token_admits_one_websocket
    (w : World) (ws ws2 : wsid) (tok : string) (st st2 : ws_status)
    (req : Request) :
  reachable w ->
  connections w !! ws = Some (mkConnection tok st (AwaitCreate req)) ->
  connections w !! ws2 = Some (mkConnection tok st2 AwaitAccept) ->
  _latent_session_tokens w !! tok = None
  /\ _active_session_tokens w !! tok = None
  /\ exec (Lookup ws2) w =
       Some (set_conn ws2
               (mkConnection tok (WsClosed 3000 "Invalid session token.")
                  Returned) w).
Proof.
  intros Hr Hc Hc2. pose proof (reachable_wf w Hr) as Hwf.
  pose proof (reachable_owned w Hr) as Hown.
  destruct (wf_creating w Hwf _ _ _ _ Hc) as [_ Hl].
  assert (_active_session_tokens w !! tok = None) as Ha.
  { destruct (_active_session_tokens w !! tok) as [sess|] eqn:E; [|done].
    destruct (owned_active w Hown _ _ E) as (s & Hs & Ht).
    by destruct (owned_creating w Hown _ _ _ _ _ _ Hc Hs). }
  split; [done|]. split; [done|]. by apply (lookup_rejects ws2 tok st2).
Qed.

(** X13. A token whose session could not be created is lost for good. If
    the creation raises (no initial message in time, a malformed one,
    navigation failed), or the request had no client address so that the
    assertion fails, the token stays in neither map along every later run,
    and every websocket that presents it later is closed with code 3000. *)
Theorem failed_creation_loses_token
    (w : World) (ws : wsid) (tok : string) :
  reachable w ->
  (forall st req e w',
     connections w !! ws = Some (mkConnection tok st (AwaitCreate req)) ->
     exec (Created ws (CreateRaised e)) w = Some w' ->
     forall l w'',
       run l w' = Some w'' ->
       _latent_session_tokens w'' !! tok = None /\
       _active_session_tokens w'' !! tok = None /\
       forall ws2 st2,
         connections w'' !! ws2 = Some (mkConnection tok st2 AwaitAccept) ->
         exec (Lookup ws2) w'' =
           Some (set_conn ws2
                   (mkConnection tok (WsClosed 3000 "Invalid session token.")
                      Returned) w''))
  /\ (forall st req w',
        connections w !! ws = Some (mkConnection tok st AwaitAccept) ->
        _latent_session_tokens w !! tok = Some req ->
        request_client req = None ->
        exec (Lookup ws) w = Some w' ->
        connections w' !! ws =
          Some (mkConnection tok st (Raised AssertionError)) /\
        forall l w'',
          run l w' = Some w'' ->
          _latent_session_tokens w'' !! tok = None /\
          _active_session_tokens w'' !! tok = None).
Proof.
  intros Hr. pose proof (reachable_wf w Hr) as Hwf.
  pose proof (reachable_owned w Hr) as Hown.
  split.
  - intros st req e w' Hc H.
    assert (dead tok w') as Hd.
    { cbn in H. unfold ws_created in H. rewrite Hc in H. simplify_eq.
      destruct (wf_creating w Hwf _ _ _ _ Hc) as [Hi Hl].
      split; cbn; try done.
      - destruct (_active_session_tokens w !! tok) as [sess|] eqn:E; [|done].
        destruct (owned_active w Hown _ _ E) as (s & Hs & Ht).
        by destruct (owned_creating w Hown _ _ _ _ _ _ Hc Hs).
      - intros ws' st' req' Hc'. destruct (decide (ws' = ws)) as [->|Hne].
        + rewrite lookup_insert_eq in Hc'. by simplify_eq.
        + rewrite lookup_insert_ne in Hc' by done.
          apply Hne. by eapply (owned_once w Hown).
      - intros sess s Hs. by eapply (owned_creating w Hown). }
    intros l w'' Hrun. pose proof (dead_run tok l w' w'' Hd Hrun) as Hd'.
    split; [apply Hd'|]. split; [apply Hd'|].
    intros ws2 st2 Hc2.
    apply (lookup_rejects ws2 tok st2); [done|apply Hd'|apply Hd'].
  - intros st req w' Hc Hl Hcl H.
    cbn in H. unfold ws_lookup in H. rewrite Hc, Hl, Hcl in H. simplify_eq.
    split; [cbn; apply lookup_insert_eq|].
    assert (dead tok
              (set_conn ws (mkConnection tok st (Raised AssertionError))
                 (set_latent (delete tok (_latent_session_tokens w)) w)))
      as Hd.
    { split; cbn.
      - apply (wf_latent_issued w Hwf). by rewrite Hl.
      - apply lookup_delete_eq.
      - destruct (wf_disjoint w Hwf tok); [congruence|done].
      - intros ws' st' req' Hc'. destruct (decide (ws' = ws)) as [->|Hne].
        + rewrite lookup_insert_eq in Hc'. by simplify_eq.
        + rewrite lookup_insert_ne in Hc' by done.
          destruct (wf_creating w Hwf _ _ _ _ Hc') as [_ Hn]. congruence.
      - intros sess s Hs Ht.
        destruct (wf_closure w Hwf _ _ _ Hs Ht) as [_ Hn]. congruence. }
    intros l w'' Hrun. pose proof (dead_run tok l _ w'' Hd Hrun) as Hd'.
    split; apply Hd'.
Qed.

(** X11. From page request to reconnection. A websocket that presents a
    latent token, with the gate open, gets a new session stored under the
    token; when the connection is then lost with a close code other than
    1001, the session stays in the active map with its socket field and its
    is-active event cleared. A second websocket presenting the same token is
    then served by that same session object: no session is allocated, the
    resend of all components is scheduled, and the token still refers to
    the same session afterwards. *)
Theorem disconnect_then_reconnect
    (w : World) (ws ws2 : wsid) (tok : string) (req : Request)
    (client : string * Z) (s : Session) (code : Z) (created2 : create_outcome)
    (served2 : serve_outcome) :
  connections w !! ws = None -> connections w !! ws2 = None -> ws2 <> ws ->
  _can_create_new_sessions w = true ->
  _latent_session_tokens w !! tok = Some req ->
  request_client req = Some client ->
  code <> 1001%Z ->
  exists w1 w2,
    _serve_websocket ws tok (CreateReturned s) (ServeDisconnect code) w = Some w1
    /\ _latent_session_tokens w1 !! tok = None
    /\ _active_session_tokens w1 !! tok = Some (next_sid w)
    /\ sessions w1 !! next_sid w =
         Some (mkSession None false (_last_interaction_timestamp s) (Some tok))
    /\ spawned w1 = spawned w ++ [Refresh (next_sid w)]
    /\ _serve_websocket ws2 tok created2 served2 w1 = Some w2
    /\ next_sid w2 = next_sid w1
    /\ dom (sessions w2) = dom (sessions w1)
    /\ _active_session_tokens w2 !! tok = Some (next_sid w)
    /\ SendAllComponentsOnReconnect (next_sid w) ∈ spawned w2
    /\ (forall c, c ∈ spawned w2 -> c ∈ spawned w1 \/
                  c = SendAllComponentsOnReconnect (next_sid w) \/
                  c = Teardown (next_sid w)).
Proof.
  intros Hc Hc2 Hne Hg Hl Hcl Hcode.
  assert (exists w1,
    _serve_websocket ws tok (CreateReturned s) (ServeDisconnect code) w = Some w1
    /\ _latent_session_tokens w1 = delete tok (_latent_session_tokens w)
    /\ _active_session_tokens w1 = <[tok := next_sid w]> (_active_session_tokens w)
    /\ sessions w1 =
         <[next_sid w :=
             mkSession None false (_last_interaction_timestamp s) (Some tok)]>
           (sessions w)
    /\ spawned w1 = spawned w ++ [Refresh (next_sid w)]
    /\ next_sid w1 = S (next_sid w)
    /\ _can_create_new_sessions w1 = true
    /\ connections w1 !! ws2 = None) as (w1 & H1 & Hl1 & Ha1 & Hs1 & Hsp1 & Hn1 & Hg1 & Hc21).
  { eexists. unfold _serve_websocket, ws_connect. rewrite Hc. cbn.
    unfold ws_pass_gate. cbn. rewrite lookup_insert_eq, Hg. cbn.
    unfold ws_lookup. cbn. rewrite lookup_insert_eq, Hl, Hcl. cbn.
    rewrite lookup_insert_eq. cbn.
    unfold ws_created. cbn. rewrite lookup_insert_eq. cbn.
    rewrite lookup_insert_eq. cbn.
    unfold ws_serve_ends. cbn. rewrite lookup_insert_eq.
    rewrite bool_decide_eq_false_2 by done.
    split; [reflexivity|]. cbn.
    split; [done|]. split; [done|]. split.
    { rewrite !alter_insert_eq. done. }
    split; [done|]. split; [done|]. split; [done|].
    by rewrite !lookup_insert_ne. }
  assert (_latent_session_tokens w1 !! tok = None) as Hl1'
    by (rewrite Hl1; apply lookup_delete_eq).
  assert (_active_session_tokens w1 !! tok = Some (next_sid w)) as Ha1'
    by (rewrite Ha1; apply lookup_insert_eq).
  assert (exists w2,
    _serve_websocket ws2 tok created2 served2 w1 = Some w2
    /\ next_sid w2 = next_sid w1
    /\ dom (sessions w2) = dom (sessions w1)
    /\ _active_session_tokens w2 = _active_session_tokens w1
    /\ (spawned w2 = spawned w1 ++ [SendAllComponentsOnReconnect (next_sid w)]
        \/ spawned w2 = (spawned w1 ++ [SendAllComponentsOnReconnect (next_sid w)])
                          ++ [Teardown (next_sid w)]))
    as (w2 & H2 & Hn2 & Hd2 & Ha2 & Hsp2).
  { unfold _serve_websocket, ws_connect. rewrite Hc21. cbn.
    unfold ws_pass_gate. cbn. rewrite lookup_insert_eq, Hg1. cbn.
    unfold ws_lookup. cbn. rewrite lookup_insert_eq, Hl1', Ha1'. cbn.
    rewrite lookup_insert_eq. cbn.
    unfold ws_serve_ends. cbn. rewrite lookup_insert_eq.
    destruct served2 as [|code2| |e]; [|case_bool_decide| |];
      (eexists; split; [reflexivity|]; cbn; split; [done|];
       split; [by rewrite !dom_alter_L|]; split; [done|]; auto). }
  exists w1, w2. split; [done|]. split; [done|]. split; [done|].
  split; [by rewrite Hs1, lookup_insert_eq|]. split; [done|].
  split; [done|]. split; [done|]. split; [done|].
  split; [by rewrite Ha2|]. split.
  - destruct Hsp2 as [->| ->]; rewrite !elem_of_app, !list_elem_of_singleton;
      auto.
  - intros c Hin.
    destruct Hsp2 as [Heq|Heq]; rewrite Heq in Hin;
      rewrite !elem_of_app, !list_elem_of_singleton in Hin; naive_solver.
Qed.

(** The loop's test reads nothing that scheduling a coroutine changes. *)
Lemma expired_set_spawned cutoff l w sess :
  expired cutoff (set_spawned l w) sess = expired cutoff w sess.
Proof. done. Qed.

(** X14. The reaper, over any number of turns, changes nothing but the list
    of scheduled coroutines: it never removes an entry from either map, so a
    latent token is never reaped, and it writes no session field. Every
    coroutine it schedules is the teardown of a session that was in the
    active map and whose last interaction was more than 60 minutes before
    the clock reading of one of its passes. Once the server object is gone
    the loop ends without a pass. *)
Theorem reaper_loop_only_schedules_expired (turns : list (bool * Q)) (w : World) :
  let r := reaper_loop turns w in
  _latent_session_tokens r.2 = _latent_session_tokens w
  /\ _active_session_tokens r.2 = _active_session_tokens w
  /\ sessions r.2 = sessions w
  /\ connections r.2 = connections w
  /\ _can_create_new_sessions r.2 = _can_create_new_sessions w
  /\ (exists l,
        spawned r.2 = spawned w ++ l /\
        forall c, c ∈ l ->
          exists sess now ts,
            c = Teardown sess /\ Pass now ∈ r.1 /\
            sess ∈ active_values w /\
            timestamp_of w sess = Some ts /\ (ts < now - 60 * 60)%Q)
  /\ (forall now rest,
        turns = (false, now) :: rest -> r = ([Sleep LOOP_INTERVAL; Exit], w)).
Proof.
  cbn zeta.
  assert (forall w0,
    sessions w0 = sessions w ->
    _active_session_tokens w0 = _active_session_tokens w ->
    let r := reaper_loop turns w0 in
    _latent_session_tokens r.2 = _latent_session_tokens w0
    /\ _active_session_tokens r.2 = _active_session_tokens w0
    /\ sessions r.2 = sessions w0
    /\ connections r.2 = connections w0
    /\ _can_create_new_sessions r.2 = _can_create_new_sessions w0
    /\ exists l,
         spawned r.2 = spawned w0 ++ l /\
         forall c, c ∈ l ->
           exists sess now ts,
             c = Teardown sess /\ Pass now ∈ r.1 /\
             sess ∈ active_values w /\
             timestamp_of w sess = Some ts /\ (ts < now - 60 * 60)%Q) as Hgen.
  { induction turns as [|[alive now] rest IH]; intros w0 Hs Ha; cbn zeta.
    - cbn. repeat (split; [done|]). exists []. rewrite app_nil_r.
      split; [done|]. intros c Hc. by apply elem_of_nil in Hc.
    - cbn [reaper_loop]. destruct alive.
      + unfold reaper_pass. rewrite foldl_reap_filter.
        set (new := Teardown <$>
                      filter (λ sess, expired (now - SESSION_LIFETIME) w0 sess = true)
                             (active_values w0)).
        specialize (IH (set_spawned (spawned w0 ++ new) w0) Hs Ha).
        cbn zeta in IH.
        destruct (reaper_loop rest (set_spawned (spawned w0 ++ new) w0))
          as [evs w'] eqn:E.
        cbn [fst snd] in *.
        destruct IH as (H1 & H2 & H3 & H4 & H5 & l & Hl & Hin).
        repeat (split; [done|]).
        exists (new ++ l). split; [rewrite Hl; cbn; by rewrite <- app_assoc|].
        intros c Hc. apply elem_of_app in Hc as [Hc|Hc].
        * unfold new in Hc. apply list_elem_of_fmap in Hc as (sess & -> & Hc).
          apply list_elem_of_filter in Hc as [He Hc].
          unfold expired in He.
          assert (timestamp_of w0 sess = timestamp_of w sess) as Hts
            by (unfold timestamp_of; by rewrite Hs).
          assert (active_values w0 = active_values w) as Hav
            by (unfold active_values; by rewrite Ha).
          rewrite Hts in He.
          destruct (timestamp_of w sess) as [ts|] eqn:Et; [|done].
          exists sess, now, ts. split; [done|].
          split; [apply elem_of_cons; right; apply elem_of_cons; by left|].
          split; [by rewrite <- Hav|]. split; [done|].
          by apply Qltb_true in He.
        * destruct (Hin c Hc) as (sess & now' & ts & -> & Hp & Hrest).
          exists sess, now', ts. split; [done|].
          split; [|done].
          apply elem_of_cons; right; apply elem_of_cons; by right.
      + cbn. repeat (split; [done|]). exists []. rewrite app_nil_r.
        split; [done|]. intros c Hc. by apply elem_of_nil in Hc. }
  destruct (Hgen w eq_refl eq_refl) as (H1 & H2 & H3 & H4 & H5 & H6).
  repeat (split; [done|]). intros now rest ->. done.
Qed.

End SessionsMore.

(** ** [_get_all_meta_tags] (lines 351-379) *)

Module MetaTags.

(** The double quote character. *)
Definition dquote : ascii := "034"%char.

(** [s.replace(c, by)] for a one-character pattern. *)
Fixpoint replace_char (c : ascii) (by_ : string) (s : string) : string :=
  match s with
  | EmptyString => EmptyString
  | String d s' =>
      if Ascii.eqb d c then by_ +:+ replace_char c by_ s'
      else String d (replace_char c by_ s')
  end.

(** Python's [html.escape(s)] (with [quote=True]): five replacements, the
    ampersand first. *)
Definition html_escape (s : string) : string :=
  replace_char "'"%char "&#x27;"
    (replace_char dquote "&quot;"
       (replace_char ">"%char "&gt;"
          (replace_char "<"%char "&lt;"
             (replace_char "&"%char "&amp;" s)))).

(** A Python [dict] of strings, as the list of its items in insertion
    order. [dict_set] is [d[k] = v]: a key that is present keeps its place. *)
Fixpoint dict_set (k v : string) (d : list (string * string))
  : list (string * string) :=
  match d with
  | [] => [(k, v)]
  | (k', v') :: rest =>
      if String.eqb k' k then (k, v) :: rest
      else (k', v') :: dict_set k v rest
  end.

(** [d.update(other)]. *)
Definition dict_update (d other : list (string * string))
  : list (string * string) :=
  foldl (λ acc kv, dict_set kv.1 kv.2 acc) d other.

(** [d.get(k)]. *)
Fixpoint dict_get (k : string) (d : list (string * string)) : option string :=
  match d with
  | [] => None
  | (k', v') :: rest => if String.eqb k' k then Some v' else dict_get k rest
  end.

(** Lines 358-365. *)
Definition default_tags (name description : string) : list (string * string) :=
  [ ("og:title", name);
    ("description", description);
    ("og:description", description);
    ("keywords", "python, web, app, rio");
    ("image", "/rio/favicon.png");
    ("viewport", "width=device-width, initial-scale=1") ].

(** Line 377, the f-string. *)
Definition meta_tag (kv : string * string) : string :=
  "<meta name=" +:+ String dquote (html_escape kv.1)
    +:+ String dquote " content="
    +:+ String dquote (html_escape kv.2)
    +:+ String dquote ">".

(** [_get_all_meta_tags] for an app with the given name, description and
    custom meta tags. *)
Definition _get_all_meta_tags (name description : string)
    (_custom_meta_tags : list (string * string)) : list string :=
  meta_tag <$> dict_update (default_tags name description) _custom_meta_tags.

Fixpoint has_char (c : ascii) (s : string) : bool :=
  match s with
  | EmptyString => false
  | String d s' => Ascii.eqb d c || has_char c s'
  end.

Lemma has_char_app c s1 s2 :
  has_char c (s1 +:+ s2) = has_char c s1 || has_char c s2.
Proof.
  induction s1 as [|d s1 IH]; [done|].
  change (String d s1 +:+ s2) with (String d (s1 +:+ s2)).
  cbn [has_char]. by rewrite IH, orb_assoc.
Qed.

Lemma replace_char_removes c by_ s :
  has_char c by_ = false -> has_char c (replace_char c by_ s) = false.
Proof.
  intros Hby. induction s as [|d s IH]; [done|]. cbn [replace_char].
  destruct (Ascii.eqb d c) eqn:E.
  - by rewrite has_char_app, Hby, IH.
  - cbn [has_char]. by rewrite E, IH.
Qed.

Lemma replace_char_keeps_out d c by_ s :
  has_char d by_ = false -> has_char d s = false ->
  has_char d (replace_char c by_ s) = false.
Proof.
  intros Hby. induction s as [|e s IH]; [done|]. cbn [replace_char has_char].
  intros H. apply orb_false_iff in H as [He Hs].
  destruct (Ascii.eqb e c) eqn:E.
  - by rewrite has_char_app, Hby, IH.
  - cbn [has_char]. by rewrite He, IH.
Qed.

Lemma replace_char_absent c by_ s :
  has_char c s = false -> replace_char c by_ s = s.
Proof.
  induction s as [|d s IH]; [done|]. cbn [replace_char has_char].
  intros H. apply orb_false_iff in H as [Hd Hs]. by rewrite Hd, IH.
Qed.

(** X15. The text [html.escape] returns contains no [<], no [>], no double
    quote and no single quote, whatever the input; a text with none of the
    five special characters is returned as it is. So the name and the
    content of a meta tag can neither end their attribute nor open a tag. *)
Theorem html_escape_leaves_no_markup (s : string) :
  has_char "<"%char (html_escape s) = false
  /\ has_char ">"%char (html_escape s) = false
  /\ has_char dquote (html_escape s) = false
  /\ has_char "'"%char (html_escape s) = false
  /\ (has_char "&"%char s = false -> has_char "<"%char s = false ->
      has_char ">"%char s = false -> has_char dquote s = false ->
      has_char "'"%char s = false -> html_escape s = s).
Proof.
  unfold html_escape. split; [|split; [|split; [|split]]].
  - apply replace_char_keeps_out; [done|].
    apply replace_char_keeps_out; [done|].
    apply replace_char_keeps_out; [done|].
    by apply replace_char_removes.
  - apply replace_char_keeps_out; [done|].
    apply replace_char_keeps_out; [done|].
    by apply replace_char_removes.
  - apply replace_char_keeps_out; [done|].
    by apply replace_char_removes.
  - by apply replace_char_removes.
  - intros H1 H2 H3 H4 H5.
    rewrite (replace_char_absent "&"%char) by done.
    rewrite (replace_char_absent "<"%char) by done.
    rewrite (replace_char_absent ">"%char) by done.
    rewrite (replace_char_absent dquote) by done.
    by rewrite (replace_char_absent "'"%char).
Qed.

Lemma dict_get_set k v d : dict_get k (dict_set k v d) = Some v.
Proof.
  induction d as [|[k' v'] d IH]; cbn.
  - by rewrite String.eqb_refl.
  - destruct (String.eqb k' k) eqn:E; cbn.
    + by rewrite String.eqb_refl.
    + by rewrite E.
Qed.

Lemma dict_get_set_ne k k' v d :
  k' <> k -> dict_get k' (dict_set k v d) = dict_get k' d.
Proof.
  intros Hne. induction d as [|[k0 v0] d IH]; cbn.
  - destruct (String.eqb_spec k k'); [congruence|done].
  - destruct (String.eqb_spec k0 k) as [->|Hk]; cbn.
    + destruct (String.eqb_spec k k'); [congruence|done].
    + by rewrite IH.
Qed.

Lemma dict_set_keys k v d :
  NoDup d.*1 -> NoDup (dict_set k v d).*1 /\
  forall k0, k0 ∈ (dict_set k v d).*1 <-> k0 = k \/ k0 ∈ d.*1.
Proof.
  induction d as [|[k' v'] d IH]; cbn; intros Hnd.
  - split; [apply NoDup_singleton|]. intros k0.
    rewrite list_elem_of_singleton, elem_of_nil. naive_solver.
  - apply NoDup_cons in Hnd as [Hnin Hnd].
    destruct (String.eqb_spec k' k) as [->|Hk]; cbn.
    + split; [by apply NoDup_cons|]. intros k0. rewrite !elem_of_cons.
      naive_solver.
    + destruct (IH Hnd) as [IH1 IH2]. split.
      * apply NoDup_cons. split; [|done]. rewrite IH2. naive_solver.
      * intros k0. rewrite !elem_of_cons, IH2. naive_solver.
Qed.

Lemma dict_update_spec other d :
  NoDup d.*1 ->
  NoDup (dict_update d other).*1
  /\ (forall k, dict_get k (dict_update d other) =
        match dict_get k (reverse other) with
        | Some v => Some v
        | None => dict_get k d
        end)
  /\ (forall k, k ∈ (dict_update d other).*1 <-> k ∈ d.*1 \/ k ∈ other.*1).
Proof.
  revert d. induction other as [|[k v] other IH]; intros d Hnd.
  - cbn. split; [done|]. split; [done|]. intros k. rewrite elem_of_nil.
    naive_solver.
  - change (dict_update d ((k, v) :: other))
      with (dict_update (dict_set k v d) other).
    rewrite fmap_cons. cbn [fst].
    destruct (dict_set_keys k v d Hnd) as [Hnd' Hkeys].
    destruct (IH (dict_set k v d) Hnd') as (H1 & H2 & H3).
    split; [done|]. split.
    + intros k0. rewrite H2, reverse_cons.
      assert (forall l, dict_get k0 (l ++ [(k, v)]) =
                match dict_get k0 l with
                | Some x => Some x
                | None => if String.eqb k k0 then Some v else None
                end) as Happ.
      { induction l as [|[ka va] l IHl]; cbn; [done|].
        destruct (String.eqb ka k0); [done|]. apply IHl. }
      rewrite Happ. destruct (dict_get k0 (reverse other)); [done|].
      destruct (String.eqb_spec k k0) as [->|Hne].
      * apply dict_get_set.
      * by apply dict_get_set_ne.
    + intros k0. rewrite H3, Hkeys, elem_of_cons. naive_solver.
Qed.

Lemma dict_get_Some_elem k v d : dict_get k d = Some v -> (k, v) ∈ d.
Proof.
  induction d as [|[k' v'] d IH]; cbn; [done|].
  destruct (String.eqb_spec k' k) as [->|Hne].
  - intros ?; simplify_eq. apply elem_of_cons. by left.
  - intros H. apply elem_of_cons. right. by apply IH.
Qed.

Lemma dict_get_NoDup k v d : NoDup d.*1 -> (k, v) ∈ d -> dict_get k d = Some v.
Proof.
  induction d as [|[k' v'] d IH]; cbn; intros Hnd Hin.
  - by apply elem_of_nil in Hin.
  - apply NoDup_cons in Hnd as [Hnin Hnd].
    apply elem_of_cons in Hin as [Heq|Hin].
    + simplify_eq. by rewrite String.eqb_refl.
    + destruct (String.eqb_spec k' k) as [->|Hne]; [|by apply IH].
      exfalso. apply Hnin. apply list_elem_of_fmap. by exists (k, v).
Qed.

Lemma dict_get_None k d : dict_get k d = None <-> k ∉ d.*1.
Proof.
  induction d as [|[k' v'] d IH]; cbn.
  - split; [intros _ H; by apply elem_of_nil in H|done].
  - rewrite not_elem_of_cons. destruct (String.eqb_spec k' k) as [->|Hne].
    + split; [done|]. by intros [? _].
    + rewrite IH. naive_solver.
Qed.

(** X16. The meta tags of an app: there is one tag per name, never two; a
    custom tag replaces the default of the same name and every other
    default is kept; every custom tag is there; and the tags come in the
    order of the merged dictionary. *)
Theorem meta_tags_merge (name description : string)
    (custom : list (string * string)) :
  NoDup custom.*1 ->
  let merged := dict_update (default_tags name description) custom in
  _get_all_meta_tags name description custom = meta_tag <$> merged
  /\ NoDup merged.*1
  /\ (forall k v, (k, v) ∈ custom -> (k, v) ∈ merged)
  /\ (forall k v, (k, v) ∈ default_tags name description ->
        k ∉ custom.*1 -> (k, v) ∈ merged)
  /\ (forall k v, (k, v) ∈ merged ->
        (k, v) ∈ custom \/
        ((k, v) ∈ default_tags name description /\ k ∉ custom.*1))
  /\ length (_get_all_meta_tags name description custom) = length merged.
Proof.
  intros Hnd. cbn zeta.
  assert (NoDup (default_tags name description).*1) as Hdef.
  { cbn. repeat (apply NoDup_cons; split;
      [rewrite ?elem_of_cons, elem_of_nil; intros H; repeat destruct H as [H|H];
       by simplify_eq|]). apply NoDup_nil_2. }
  destruct (dict_update_spec custom _ Hdef) as (H1 & H2 & H3).
  assert (NoDup (reverse custom).*1) as Hrev.
  { rewrite fmap_reverse. by rewrite reverse_Permutation. }
  split; [done|]. split; [done|]. split; [|split; [|split]].
  - intros k v Hin. apply dict_get_Some_elem. rewrite H2.
    rewrite (dict_get_NoDup k v (reverse custom) Hrev); [done|].
    by apply elem_of_reverse.
  - intros k v Hin Hnin. apply dict_get_Some_elem. rewrite H2.
    assert (dict_get k (reverse custom) = None) as ->.
    { apply dict_get_None. rewrite fmap_reverse. by rewrite elem_of_reverse. }
    by apply dict_get_NoDup.
  - intros k v Hin. apply (dict_get_NoDup k v _ H1) in Hin. rewrite H2 in Hin.
    destruct (dict_get k (reverse custom)) as [v'|] eqn:E.
    + simplify_eq. left. apply dict_get_Some_elem in E.
      by rewrite elem_of_reverse in E.
    + right. split; [by apply dict_get_Some_elem|].
      apply dict_get_None in E. rewrite fmap_reverse in E.
      by rewrite elem_of_reverse in E.
  - unfold _get_all_meta_tags. by rewrite length_fmap.
Qed.

End MetaTags.

(** ** [_serve_favicon] (lines 533-564) *)

Module Favicon.

Inductive response :=
| Status (status_code : Z)
| Png (content : string)
| Raise500 (detail : string).





End Favicon.

(** ** Startup and the whole of [_lifespan] (lines 292-334) *)

Module Startup.
Import Sessions Lifespan.

(** What happens during the life of the server, in order. *)
Inductive lifespan_event :=
| CreateReaperTask             (* the periodic session cleanup is scheduled *)
| DebugCallingOnAppStart
| StartHookCalled
| PrintStartHookFailure (e : string)
| InternalStartCalled
| Yield                        (* the server accepts connections *)
| Down (ev : event).           (* an event of the [finally] block *)

Section WithHooks.

Variable running_in_window : bool.

(** [self.app._on_app_start], with the way it ends when it is set. *)
Variable _on_app_start : option hook_result.

(** [self.internal_on_app_start], with the way it ends when it is set. *)
Variable internal_on_app_start : option result.

Variable _close : sid -> result.
Variable _on_app_close : option hook_result.

(** [_call_on_app_start], lines 258-273. *)
Definition _call_on_app_start : list lifespan_event * option string :=
  match _on_app_start with
  | None => ([DebugCallingOnAppStart], None)
  | Some HookReturns => ([DebugCallingOnAppStart; StartHookCalled], None)
  | Some (HookRaisesException e) =>
      ([DebugCallingOnAppStart; StartHookCalled; PrintStartHookFailure e], None)
  | Some (HookRaisesOther e) =>
      ([DebugCallingOnAppStart; StartHookCalled], Some e)
  end.

(** [_lifespan] when nothing is thrown into it at the [yield]: the events,
    and the exception that leaves it if any. [w] is the world at
    shutdown. *)
Definition _lifespan (w : World) : list lifespan_event * option string :=
  let reaper := if running_in_window then [] else [CreateReaperTask] in
  let '(start_evs, start_raised) := _call_on_app_start in
  match start_raised with
  | Some e => (reaper ++ start_evs, Some e)
  | None =>
      match internal_on_app_start with
      | Some (Fails e) =>
          (reaper ++ start_evs ++ [InternalStartCalled], Some e)
      | internal =>
          let internal_evs :=
            match internal with Some _ => [InternalStartCalled] | None => [] end in
          let '(down_evs, down_raised) := shutdown _close _on_app_close w in
          (reaper ++ start_evs ++ internal_evs ++ [Yield] ++ (Down <$> down_evs),
           down_raised)
      end
  end.

(** X18. The life of the server. The session cleanup is scheduled exactly
    when the app does not run in a window. An exception raised by the app's
    start hook is printed and startup goes on: the internal start hook is
    still called and the server starts. If the internal start hook raises,
    the server never starts and the shutdown block does not run: no session
    is closed and the close hook is not called. Whenever the server did
    start, the shutdown block runs after it. *)
Theorem lifespan_order (w : World) :
  let r := _lifespan w in
  (CreateReaperTask ∈ r.1 <-> running_in_window = false)
  /\ (forall e, _on_app_start = Some (HookRaisesException e) ->
        PrintStartHookFailure e ∈ r.1 /\
        (is_Some internal_on_app_start -> InternalStartCalled ∈ r.1) /\
        (internal_on_app_start <> None ->
         (forall e', internal_on_app_start <> Some (Fails e')) -> Yield ∈ r.1) /\
        (internal_on_app_start = None -> Yield ∈ r.1))
  /\ (forall e,
        (forall e', _on_app_start <> Some (HookRaisesOther e')) ->
        internal_on_app_start = Some (Fails e) ->
        r.2 = Some e /\ (Yield ∉ r.1) /\ forall ev, Down ev ∉ r.1)
  /\ (Yield ∈ r.1 ->
      exists pre,
        r.1 = pre ++ [Yield] ++ (Down <$> (shutdown _close _on_app_close w).1) /\
        (Yield ∉ pre) /\ (forall ev, Down ev ∉ pre) /\
        r.2 = (shutdown _close _on_app_close w).2).
Proof.
  cbn zeta. unfold _lifespan, _call_on_app_start.
  destruct (shutdown _close _on_app_close w) as [down_evs down_raised].
  split; [|split; [|split]].
  - destruct running_in_window, _on_app_start as [[|e|e]|],
      internal_on_app_start as [[|e']|]; cbn;
      rewrite ?elem_of_cons, ?elem_of_app, ?elem_of_cons, ?list_elem_of_fmap,
        ?elem_of_nil; naive_solver.
  - intros e ->.
    destruct running_in_window, internal_on_app_start as [[|e']|]; cbn;
      (split; [rewrite ?elem_of_cons; naive_solver|]);
      (split; [intros [? ?]; rewrite ?elem_of_cons; naive_solver|]);
      (split; [intros H1 H2; try done; try (by destruct (H2 e'));
               rewrite ?elem_of_cons; naive_solver|]);
      intros ?; try done; rewrite ?elem_of_cons; naive_solver.
  - intros e Hno ->.
    destruct running_in_window, _on_app_start as [[|e0|e0]|]; cbn;
      try (by destruct (Hno e0));
      (split; [done|]); (split; [|intros ev]);
      rewrite ?elem_of_cons, ?elem_of_nil; naive_solver.
  - destruct running_in_window, _on_app_start as [[|e0|e0]|],
      internal_on_app_start as [[|e']|]; cbn [fst snd app];
      try (intros H; exfalso; revert H;
           rewrite ?elem_of_cons, ?elem_of_nil; naive_solver);
      intros _;
      match goal with
      | |- exists pre, ?l = _ /\ _ =>
          let rec go acc l :=
            lazymatch l with
            | Yield :: ?rest => exists (reverse acc)
            | ?x :: ?rest => go (x :: acc) rest
            end in go (@nil lifespan_event) l
      end;
      (split; [reflexivity|]);
      (split; [cbn; rewrite ?elem_of_cons, ?elem_of_nil; naive_solver|]);
      (split; [intros ev; cbn; rewrite ?elem_of_cons, ?elem_of_nil; naive_solver
              |reflexivity]).
Qed.

End WithHooks.

End Startup.

(** ** Serving files: the directory check and the cache headers *)

Module Files.

(** A pure POSIX path as [pathlib] holds it: the root ([""] for a relative
    path, ["/"], or ["//"] for exactly two leading slashes) and the
    components. *)
Record Path := mkPath { root : string; parts : list string }.

(** [s.split("/")], with [cur] the component read so far. *)
Fixpoint split_slash (cur : string) (s : string) : list string :=
  match s with
  | EmptyString => [cur]
  | String c s' =>
      if Ascii.eqb c "/"%char then cur :: split_slash "" s'
      else split_slash (cur +:+ String c "") s'
  end.

Fixpoint leading_slashes (s : string) : nat :=
  match s with
  | String c s' => if Ascii.eqb c "/"%char then S (leading_slashes s') else 0
  | EmptyString => 0
  end.

(** A component [pathlib] keeps: not empty and not a single dot. Two dots
    are kept. *)
Definition kept (c : string) : bool :=
  negb (String.eqb c "") && negb (String.eqb c ".").

(** [PurePosixPath(s)]. *)
Definition parse_path (s : string) : Path :=
  mkPath
    (match leading_slashes s with
     | 0 => ""
     | 2 => "//"
     | _ => "/"
     end)
    (List.filter kept (split_slash "" s)).

(** [directory / asset_id]: a segment with a root replaces what is on its
    left. *)
Definition joinpath (directory : Path) (segment : string) : Path :=
  let p := parse_path segment in
  if String.eqb (root p) "" then mkPath (root directory) (parts directory ++ parts p)
  else p.

(** [path.absolute()]: the working directory is put in front of a relative
    path; nothing is resolved. *)
Definition absolute (cwd : Path) (p : Path) : Path :=
  if String.eqb (root p) "" then mkPath (root cwd) (parts cwd ++ parts p)
  else p.

Fixpoint starts_with (l prefix : list string) : bool :=
  match prefix, l with
  | [], _ => true
  | x :: prefix', y :: l' => String.eqb x y && starts_with l' prefix'
  | _ :: _, [] => false
  end.

(** [path.is_relative_to(other)]: a comparison of roots and components. *)
Definition is_relative_to (p other : Path) : bool :=
  String.eqb (root p) (root other) && starts_with (parts p) (parts other).

(** What [_serve_file_from_directory] answers with. *)
Inductive file_body :=
| NotFound                          (* [Response(status_code=404)] *)
| RangeRequests (file_path : Path). (* [byte_serving.range_requests_response] *)

(** A response: its body and its headers, by lower-case name. *)
Record HttpResponse (B : Type) := mkHttpResponse {
  body : B;
  headers : gmap string string
}.
Arguments mkHttpResponse {B} _ _.
Arguments body {B} _.
Arguments headers {B} _.

Definition lower_char (c : ascii) : ascii :=
  let n := nat_of_ascii c in
  if Nat.leb 65 n && Nat.leb n 90 then ascii_of_nat (n + 32) else c.

Fixpoint lower (s : string) : string :=
  match s with
  | EmptyString => EmptyString
  | String c s' => String (lower_char c) (lower s')
  end.

(** [response.headers[name] = value]: header names do not tell upper case
    from lower case, and a header that is present is replaced. *)
Definition set_header {B} (name value : string) (r : HttpResponse B)
  : HttpResponse B :=
  mkHttpResponse (body r) (<[lower name := value]> (headers r)).

(** The decorator [add_cache_headers] (lines 111-125), applied to the
    response of the wrapped function. *)
Definition add_cache_headers {B} (response : HttpResponse B) : HttpResponse B :=
  set_header "Cache-Control" "max-age=31536000, immutable" response.

Section WithServer.

(** The working directory of the process. *)
Variable cwd : Path.

(** The headers a fresh response object has before the handler sets any;
    they are Starlette's and [byte_serving]'s business. *)
Variable file_headers : file_body -> gmap string string.
Variable asset_headers : Assets.response -> gmap string string.

(** [mimetypes.guess_type(name, strict=False)[0]]. *)
Variable guess_type : string -> option string.

(** [utils.FRONTEND_ASSETS_DIR], [utils.HOSTED_ASSETS_DIR] and
    [self.app.assets_dir]. *)
Variable FRONTEND_ASSETS_DIR HOSTED_ASSETS_DIR assets_dir : Path.

(** The body of [_serve_file_from_directory], lines 661-677. *)
Definition file_from_directory (directory : Path) (asset_id : string)
  : file_body :=
  let asset_file_path := absolute cwd (joinpath directory asset_id) in
  if negb (is_relative_to asset_file_path directory) then NotFound
  else RangeRequests asset_file_path.

(** [_serve_file_from_directory] with its decorator. *)
Definition _serve_file_from_directory (directory : Path) (asset_id : string)
  : HttpResponse file_body :=
  let b := file_from_directory directory asset_id in
  add_cache_headers (mkHttpResponse b (file_headers b)).

(** [_serve_hosted_asset] and [_serve_user_asset], lines 604-624. *)
Definition _serve_hosted_asset (asset_id : string) : HttpResponse file_body :=
  _serve_file_from_directory HOSTED_ASSETS_DIR asset_id.

Definition _serve_user_asset (asset_id : string) : HttpResponse file_body :=
  _serve_file_from_directory assets_dir asset_id.

(** [_serve_frontend_asset], lines 566-582. *)
Definition _serve_frontend_asset (asset_id : string) : HttpResponse file_body :=
  let response :=
    _serve_file_from_directory FRONTEND_ASSETS_DIR (asset_id +:+ ".gz") in
  let response := set_header "content-encoding" "gzip" response in
  match guess_type asset_id with
  | Some (String c rest) => set_header "content-type" (String c rest) response
  | _ => response
  end.

(** [_serve_special_asset], lines 584-602; [plotly_js] is what
    [plotly.offline.get_plotlyjs()] returns when plotly is installed. *)
Definition _serve_special_asset (plotly_js : option string) (asset_id : string)
  : HttpResponse Assets.response :=
  let b :=
    if String.eqb asset_id "plotly.min.js" then
      match plotly_js with
      | None => Assets.Status 404
      | Some js => Assets.Content js (Some "text/javascript")
      end
    else Assets.Status 404 in
  add_cache_headers (mkHttpResponse b (asset_headers b)).

(** [_serve_temp_asset] with its decorator. *)
Definition _serve_temp_asset (asset_id : string)
    (_assets : gmap string Assets.Asset) : HttpResponse Assets.response :=
  let b := Assets._serve_temp_asset asset_id _assets in
  add_cache_headers (mkHttpResponse b (asset_headers b)).

End WithServer.

End Files.

Module FilesFacts.
Import Files.

Lemma starts_with_app l rest : starts_with (l ++ rest) l = true.
Proof.
  induction l as [|x l IH]; [by destruct rest|].
  change ((x :: l) ++ rest) with (x :: (l ++ rest)). cbn [starts_with].
  by rewrite String.eqb_refl, IH.
Qed.

Lemma starts_with_inv l prefix :
  starts_with l prefix = true -> exists rest, l = prefix ++ rest.
Proof.
  revert l. induction prefix as [|x prefix IH]; intros l H.
  - by exists l.
  - destruct l as [|y l]; [done|]. cbn [starts_with] in H.
    apply andb_true_iff in H as [Hxy H].
    apply String.eqb_eq in Hxy as ->. destruct (IH l H) as [rest ->].
    by exists rest.
Qed.

Lemma root_of_relative s : leading_slashes s = 0 -> root (parse_path s) = "".
Proof. intros H. unfold parse_path. cbn. by rewrite H. Qed.

Lemma root_of_rooted s : leading_slashes s <> 0 -> root (parse_path s) <> "".
Proof.
  intros H. unfold parse_path. cbn.
  destruct (leading_slashes s) as [|[|[|n]]]; done.
Qed.

Section WithServer.

Variable cwd : Path.
Variable file_headers : file_body -> gmap string string.
Variable asset_headers : Assets.response -> gmap string string.
Variable guess_type : string -> option string.
Variable FRONTEND_ASSETS_DIR HOSTED_ASSETS_DIR assets_dir : Path.

(** X19. The directory check of [_serve_file_from_directory] compares
    path components and resolves nothing. For a directory given by an
    absolute path: an asset id that does not start with a slash always
    passes, whatever its components, two dots included, and the file asked
    for is the directory's path followed by the id's components; an asset
    id that starts with a slash replaces the directory and passes only if
    its own components start with the directory's. Every path that passes
    has the directory's components as a prefix. *)
Theorem directory_check_compares_components
    (directory : Path) (asset_id : string) :
  root directory <> "" ->
  (leading_slashes asset_id = 0 ->
     file_from_directory cwd directory asset_id =
       RangeRequests
         (mkPath (root directory)
            (parts directory ++ parts (parse_path asset_id))))
  /\ (leading_slashes asset_id <> 0 ->
      file_from_directory cwd directory asset_id =
        if is_relative_to (parse_path asset_id) directory
        then RangeRequests (parse_path asset_id) else NotFound)
  /\ (forall p,
        file_from_directory cwd directory asset_id = RangeRequests p ->
        root p = root directory /\
        exists rest, parts p = parts directory ++ rest).
Proof.
  intros Hroot.
  assert (String.eqb (root directory) "" = false) as Hr
    by (by apply String.eqb_neq).
  assert (leading_slashes asset_id = 0 ->
          file_from_directory cwd directory asset_id =
            RangeRequests
              (mkPath (root directory)
                 (parts directory ++ parts (parse_path asset_id)))) as H1.
  { intros H0. unfold file_from_directory, joinpath.
    rewrite (root_of_relative _ H0). cbn [String.eqb].
    unfold absolute. cbn [root parts]. rewrite Hr.
    unfold is_relative_to. cbn [root parts].
    by rewrite String.eqb_refl, starts_with_app. }
  assert (leading_slashes asset_id <> 0 ->
          file_from_directory cwd directory asset_id =
            if is_relative_to (parse_path asset_id) directory
            then RangeRequests (parse_path asset_id) else NotFound) as H2.
  { intros H0. unfold file_from_directory, joinpath.
    pose proof (root_of_rooted _ H0) as Hne.
    apply String.eqb_neq in Hne. rewrite Hne.
    unfold absolute. rewrite Hne.
    by destruct (is_relative_to (parse_path asset_id) directory). }
  split; [done|]. split; [done|].
  intros p Hp. destruct (decide (leading_slashes asset_id = 0)) as [H0|H0].
  - rewrite (H1 H0) in Hp. simplify_eq. cbn. split; [done|]. eauto.
  - rewrite (H2 H0) in Hp.
    destruct (is_relative_to (parse_path asset_id) directory) eqn:E; [|done].
    simplify_eq. unfold is_relative_to in E.
    apply andb_true_iff in E as [E1 E2]. apply String.eqb_eq in E1.
    split; [done|]. by apply starts_with_inv.
Qed.

Lemma lower_cache_control : lower "Cache-Control" = "cache-control".
Proof. reflexivity. Qed.

(** X20. Every response of [_serve_file_from_directory], of
    [_serve_special_asset] and of [_serve_temp_asset] carries the header
    [Cache-Control: max-age=31536000, immutable], the 404 responses
    included: the answer to a hosted asset that is gone is marked as
    cacheable for a year too. The decorator leaves the body and every other
    header alone. A frontend asset is read from the file with [.gz]
    appended and its response always has [content-encoding: gzip] as well,
    also when it is a 404; its content type is the guessed one when there
    is a guess. *)
Theorem responses_carry_cache_headers
    (directory : Path) (asset_id : string) (plotly_js : option string)
    (_assets : gmap string Assets.Asset) :
  let cached := Some "max-age=31536000, immutable" in
  headers (_serve_file_from_directory cwd file_headers directory asset_id)
    !! "cache-control" = cached
  /\ headers (_serve_special_asset asset_headers plotly_js asset_id)
       !! "cache-control" = cached
  /\ headers (Files._serve_temp_asset asset_headers asset_id _assets)
       !! "cache-control" = cached
  /\ (_assets !! asset_id = None ->
      body (Files._serve_temp_asset asset_headers asset_id _assets)
        = Assets.Status 404)
  /\ (forall B (r : HttpResponse B),
        body (add_cache_headers r) = body r /\
        (forall name, name <> "cache-control" ->
           headers (add_cache_headers r) !! name = headers r !! name) /\
        add_cache_headers (add_cache_headers r) = add_cache_headers r)
  /\ (let r := _serve_frontend_asset cwd file_headers guess_type
                 FRONTEND_ASSETS_DIR asset_id in
      body r = file_from_directory cwd FRONTEND_ASSETS_DIR (asset_id +:+ ".gz")
      /\ headers r !! "content-encoding" = Some "gzip"
      /\ headers r !! "cache-control" = cached
      /\ (forall c rest, guess_type asset_id = Some (String c rest) ->
            headers r !! "content-type" = Some (String c rest))
      /\ (guess_type asset_id = None \/ guess_type asset_id = Some "" ->
          headers r !! "content-type" =
            file_headers (body r) !! "content-type")).
Proof.
  cbn zeta. split; [|split; [|split; [|split; [|split]]]].
  - unfold _serve_file_from_directory, add_cache_headers, set_header.
    cbn [headers]. rewrite lower_cache_control. apply lookup_insert_eq.
  - unfold _serve_special_asset, add_cache_headers, set_header.
    cbn [headers]. rewrite lower_cache_control. apply lookup_insert_eq.
  - unfold Files._serve_temp_asset, add_cache_headers, set_header.
    cbn [headers]. rewrite lower_cache_control. apply lookup_insert_eq.
  - intros Hn. unfold Files._serve_temp_asset, Assets._serve_temp_asset.
    cbn. by rewrite Hn.
  - intros B r. unfold add_cache_headers, set_header. cbn [body headers].
    rewrite lower_cache_control. split; [done|]. split.
    + intros name Hne. by rewrite lookup_insert_ne.
    + by rewrite insert_insert_eq.
  - unfold _serve_frontend_asset, _serve_file_from_directory, add_cache_headers.
    set (b := file_from_directory cwd FRONTEND_ASSETS_DIR (asset_id +:+ ".gz")).
    destruct (guess_type asset_id) as [[|c rest]|] eqn:Eg;
      unfold set_header; cbn [body headers];
      rewrite lower_cache_control;
      change (lower "content-encoding") with "content-encoding";
      try change (lower "content-type") with "content-type".
    + split; [done|]. split; [apply lookup_insert_eq|].
      split; [by rewrite lookup_insert_ne by done; rewrite lookup_insert_eq|].
      split; [done|]. intros _.
      by repeat (rewrite lookup_insert_ne by done).
    + split; [done|].
      split; [by rewrite lookup_insert_ne by done; rewrite lookup_insert_eq|].
      split; [by repeat (rewrite lookup_insert_ne by done);
                 rewrite lookup_insert_eq|].
      split; [intros ? ? ?; simplify_eq; apply lookup_insert_eq|].
      intros [?|?]; done.
    + split; [done|]. split; [apply lookup_insert_eq|].
      split; [by rewrite lookup_insert_ne by done; rewrite lookup_insert_eq|].
      split; [done|]. intros _.
      by repeat (rewrite lookup_insert_ne by done).
Qed.

End WithServer.

End FilesFacts.

(** ** The further theorems on concrete inputs *)

Module MoreExamples.

Lemma upload_url_round_trip_witness :
  Assets.has_slash "abc" = false
  /\ Assets.dispatch Assets.PUT (RoutingFacts.upload_url "abc") =
       Assets.Handle Assets.to_serve_file_upload "abc"
  /\ (Upload._serve_file_upload PyInt.int "abc" ["a"] ["x"] ["1"]
        [Upload.mkUploadFile "z"] (Upload.file_chooser_begin "abc" Upload.init)).1
     <> Upload.Raise (Upload.HTTPException 400 "Invalid upload token.")
  /\ Assets.dispatch Assets.GET (RoutingFacts.upload_url "abc") =
       Assets.Handle Assets.to_serve_index "rio/upload/abc".
Proof.
  assert ("abc" <> "") as Hne by done.
  destruct (UploadRouteFacts.upload_url_round_trip PyInt.int "abc" Upload.init
              Hne eq_refl) as (H1 & _ & H3 & H4).
  split; [reflexivity|]. split; [exact H1|]. split; [apply H3|exact H4].
Defined.

Import Upload UploadFacts FileChooser FileChooserFacts.


Lemma failed_upload_orphans_future_witness :
  reachable PyInt.int Examples.st_pending
  /\ _pending_file_uploads Examples.st_pending !! "up1" = Some 0
  /\ (_serve_file_upload PyInt.int "up1" ["a"; "b"] ["x"] [] []
        Examples.st_pending).1
     = Raise (HTTPException 422
         "Inconsistent number of files between the different message parts.")
  /\ forall l res,
       futures
         (run PyInt.int l
            (_serve_file_upload PyInt.int "up1" ["a"; "b"] ["x"] [] []
               Examples.st_pending).2) !! 0
       <> Some (Finished res).
Proof.
  assert (reachable PyInt.int Examples.st_pending) as Hr.
  { apply (reachable_step PyInt.int (FileChooser "up1")), reachable_init. }
  assert (_pending_file_uploads Examples.st_pending !! "up1" = Some 0) as Ht
    by (vm_compute; reflexivity).
  split; [exact Hr|]. split; [exact Ht|]. split; [vm_compute; reflexivity|].
  destruct (failed_upload_orphans_future PyInt.int Examples.st_pending "up1" 0
              ["a"; "b"] ["x"] [] [] Hr Ht) as (H & _).
  apply H. vm_compute. discriminate.
Defined.

Import Sessions SessionsFacts SessionsMore.

(** Two websockets with the same latent token: the first is creating the
    session, the second was just accepted. *)
Definition w_two_websockets : World :=
  Examples.after
    [Index "tokA" Examples.request0; Connect 0 "tokA"; PassGate 0; Lookup 0;
     Connect 1 "tokA"; PassGate 1].

Lemma w_two_websockets_reachable : Sessions.reachable w_two_websockets.
Proof.
  apply (Examples.after_reachable
           [Index "tokA" Examples.request0; Connect 0 "tokA"; PassGate 0;
            Lookup 0; Connect 1 "tokA"; PassGate 1]).
  vm_compute. reflexivity.
Qed.

Lemma w_creating_reachable : Sessions.reachable Examples.w_creating.
Proof.
  apply (Examples.after_reachable
           [Index "tokA" Examples.request0; Connect 0 "tokA"; PassGate 0;
            Lookup 0]).
  vm_compute. reflexivity.
Qed.

Lemma token_admits_one_websocket_witness :
  Sessions.reachable w_two_websockets
  /\ connections w_two_websockets !! 0 =
       Some (mkConnection "tokA" WsAccepted (AwaitCreate Examples.request0))
  /\ connections w_two_websockets !! 1 =
       Some (mkConnection "tokA" WsAccepted AwaitAccept)
  /\ _latent_session_tokens w_two_websockets !! "tokA" = None
  /\ _active_session_tokens w_two_websockets !! "tokA" = None
  /\ Sessions.exec (Lookup 1) w_two_websockets =
       Some (set_conn 1
               (mkConnection "tokA" (WsClosed 3000 "Invalid session token.")
                  Returned) w_two_websockets).
Proof.
  assert (connections w_two_websockets !! 0 =
            Some (mkConnection "tokA" WsAccepted
                    (AwaitCreate Examples.request0))) as Hc
    by (vm_compute; reflexivity).
  assert (connections w_two_websockets !! 1 =
            Some (mkConnection "tokA" WsAccepted AwaitAccept)) as Hc2
    by (vm_compute; reflexivity).
  split; [exact w_two_websockets_reachable|].
  split; [exact Hc|]. split; [exact Hc2|].
  exact (token_admits_one_websocket w_two_websockets 0 1 "tokA" WsAccepted
           WsAccepted Examples.request0 w_two_websockets_reachable Hc Hc2).
Defined.

Lemma failed_creation_loses_token_witness :
  Sessions.reachable Examples.w_creating
  /\ exists w',
       Sessions.exec (Created 0 (CreateRaised TimeoutError)) Examples.w_creating
         = Some w' /\
       forall l w'',
         Sessions.run l w' = Some w'' ->
         _latent_session_tokens w'' !! "tokA" = None /\
         _active_session_tokens w'' !! "tokA" = None.
Proof.
  split; [exact w_creating_reachable|].
  destruct (failed_creation_loses_token Examples.w_creating 0 "tokA"
              w_creating_reachable) as (H & _).
  eexists. split; [vm_compute; reflexivity|].
  intros l w'' Hrun.
  destruct (H WsAccepted Examples.request0 TimeoutError _
              ltac:(vm_compute; reflexivity) ltac:(vm_compute; reflexivity)
              l w'' Hrun) as (Hl & Ha & _).
  by split.
Defined.

Lemma disconnect_then_reconnect_witness :
  connections Examples.w_latent !! 0 = None
  /\ _latent_session_tokens Examples.w_latent !! "tokA" = Some Examples.request0
  /\ exists w1 w2,
       _serve_websocket 0 "tokA" (CreateReturned Examples.session0)
         (ServeDisconnect 1006) Examples.w_latent = Some w1
       /\ _active_session_tokens w1 !! "tokA" = Some 0
       /\ sessions w1 !! 0 = Some (mkSession None false 0%Q (Some "tokA"))
       /\ _serve_websocket 1 "tokA" (CreateRaised TimeoutError) ServeCancelled w1
          = Some w2
       /\ next_sid w2 = next_sid w1
       /\ _active_session_tokens w2 !! "tokA" = Some 0
       /\ SendAllComponentsOnReconnect 0 ∈ spawned w2.
Proof.
  assert (connections Examples.w_latent !! 0 = None) as Hc
    by (vm_compute; reflexivity).
  assert (connections Examples.w_latent !! 1 = None) as Hc2
    by (vm_compute; reflexivity).
  assert (_latent_session_tokens Examples.w_latent !! "tokA"
          = Some Examples.request0) as Hl by (vm_compute; reflexivity).
  assert (_can_create_new_sessions Examples.w_latent = true) as Hg
    by (vm_compute; reflexivity).
  assert (1 <> 0) as Hne by lia.
  assert (1006%Z <> 1001%Z) as Hcode by lia.
  split; [exact Hc|]. split; [exact Hl|].
  destruct (disconnect_then_reconnect Examples.w_latent 0 1 "tokA"
              Examples.request0 ("127.0.0.1", 50000%Z) Examples.session0 1006
              (CreateRaised TimeoutError) ServeCancelled
              Hc Hc2 Hne Hg Hl eq_refl Hcode)
    as (w1 & w2 & H1 & _ & H3 & H4 & _ & H6 & H7 & _ & H9 & H10 & _).
  exists w1, w2.
  change (next_sid Examples.w_latent) with 0 in *.
  split; [exact H1|]. split; [exact H3|]. split; [exact H4|].
  split; [exact H6|]. split; [exact H7|]. split; [exact H9|exact H10].
Defined.

Import MetaTags.

Lemma meta_tags_merge_witness :
  NoDup [("description", "mine"); ("robots", "noindex")].*1
  /\ (let merged :=
        dict_update (default_tags "My App" "An app")
          [("description", "mine"); ("robots", "noindex")] in
      merged.*1 = ["og:title"; "description"; "og:description"; "keywords";
                   "image"; "viewport"; "robots"]
      /\ ("description", "mine") ∈ merged
      /\ ("og:title", "My App") ∈ merged
      /\ length (_get_all_meta_tags "My App" "An app"
                   [("description", "mine"); ("robots", "noindex")]) = 7).
Proof.
  assert (NoDup [("description", "mine"); ("robots", "noindex")].*1) as Hnd.
  { cbn. apply NoDup_cons. split; [|apply NoDup_singleton].
    intros H. by apply list_elem_of_singleton in H. }
  split; [exact Hnd|]. cbn zeta.
  destruct (meta_tags_merge "My App" "An app"
              [("description", "mine"); ("robots", "noindex")] Hnd)
    as (_ & _ & Hcustom & Hdefault & _ & Hlen).
  split; [vm_compute; reflexivity|]. split; [|split].
  - apply Hcustom. apply elem_of_cons. by left.
  - apply Hdefault.
    + apply elem_of_cons. by left.
    + cbn. rewrite !elem_of_cons, elem_of_nil. intros [H|[H|H]]; done.
  - rewrite Hlen. vm_compute. reflexivity.
Defined.

Import Files FilesFacts.

Lemma directory_check_compares_components_witness :
  file_from_directory (mkPath "/" ["home"]) (mkPath "/" ["srv"; "assets"])
    "../../etc/passwd"
  = RangeRequests (mkPath "/" ["srv"; "assets"; ".."; ".."; "etc"; "passwd"])
  /\ file_from_directory (mkPath "/" ["home"]) (mkPath "/" ["srv"; "assets"])
       "/etc/passwd" = NotFound
  /\ file_from_directory (mkPath "/" ["home"]) (mkPath "/" ["srv"; "assets"])
       "img//./logo.png"
     = RangeRequests (mkPath "/" ["srv"; "assets"; "img"; "logo.png"]).
Proof.
  assert (root (mkPath "/" ["srv"; "assets"]) <> "") as Hroot by done.
  split; [|split].
  - apply (directory_check_compares_components (mkPath "/" ["home"])
             (mkPath "/" ["srv"; "assets"]) "../../etc/passwd" Hroot).
    reflexivity.
  - rewrite (proj1 (proj2 (directory_check_compares_components
               (mkPath "/" ["home"]) (mkPath "/" ["srv"; "assets"])
               "/etc/passwd" Hroot))); [reflexivity|]. cbn. lia.
  - apply (directory_check_compares_components (mkPath "/" ["home"])
             (mkPath "/" ["srv"; "assets"]) "img//./logo.png" Hroot).
    reflexivity.
Defined.

End MoreExamples.
